(** * FloorPlan 3D: the image-to-geometry pipeline of [ImageProcessor]

    A shallow embedding of [src/utils/imageProcessor.ts] (class
    [ImageProcessor]) and of the types of [src/types/FloorPlan.ts],
    followed by the consumers of its result: the OBJ export of
    [components/ExportOptions.tsx], the furniture of the scene of
    [components/FloorPlan3DViewer.tsx] and the file drop of
    [components/FileUpload.tsx].

    Number model.  A JavaScript number is an IEEE-754 double.  Every
    quantity that the pipeline keeps integral (pixel coordinates, array
    indices, colour bytes, the shoelace accumulator) is modelled in [Z];
    the quantities that leave the integers (luminance, Sobel responses,
    polygon area, aspect ratio, scale) are modelled as exact rationals
    [Q].  The model is therefore the pipeline in exact arithmetic.

    Platform model.  The class drives three browser objects: the image
    decoder behind [new Image()], an [HTMLCanvasElement] and its 2D
    context.  Their behaviour is not part of the repository; the part the
    pipeline observes is modelled in [Section Platform], with the decoder
    and the resampler of [drawImage] left as variables. *)

From Stdlib Require Import ZArith QArith Qabs Qminmax Qround Lia Lra.
From Stdlib Require Reals Qreals Lqa.
From stdpp Require Import base decidable option list sets gmap relations strings.

#[local] Open Scope Z_scope.

(** ** Data model ([types/FloorPlan.ts]) *)

Module Point.
Record t : Type := mk { x : Z; y : Z }.
End Point.

#[global] Instance Point_eq_dec : EqDecision Point.t.
Proof. solve_decision. Defined.

Module ImageData.
(** [data] is the RGBA byte array ([Uint8ClampedArray]) of length
    [4 * width * height], pixel [(x, y)] starting at [(y*width + x)*4]. *)
Record t : Type := mk { width : Z; height : Z; data : list Z }.
End ImageData.

Inductive ContourType : Type := wall | door | window | room.

#[global] Instance ContourType_eq_dec : EqDecision ContourType.
Proof. solve_decision. Defined.

Module Contour.
Record t : Type := mk { points : list Point.t; area : Q; type : ContourType }.
End Contour.

Module Classified.
(** The object [{ walls, doors, windows, rooms }] of [classifyContours]. *)
Record t : Type := mk {
  walls : list Contour.t;
  doors : list Contour.t;
  windows : list Contour.t;
  rooms : list Contour.t
}.
End Classified.

Module ProcessingResult.
Record t : Type := mk {
  walls : list Contour.t;
  doors : list Contour.t;
  windows : list Contour.t;
  rooms : list Contour.t;
  scale : Q;
  imageWidth : Z;
  imageHeight : Z
}.
End ProcessingResult.

(** ** Numbers and typed arrays *)

(** [a < b] on rationals, as a boolean. *)
Definition Qltb (a b : Q) : bool := negb (Qle_bool b a).

(** [data[i]]: a read of a typed array.  A read outside the array yields
    [undefined] in JavaScript; the two readers below treat it as follows:
    [edges.data[idx] > 128] is false for [undefined], as it is for [0], and
    [detectEdges] reads only inside a well-formed [ImageData]. *)
Definition get (data : list Z) (i : Z) : Z :=
  if decide (0 ≤ i) then default 0 (data !! Z.to_nat i) else 0.

(** [data[i] = v]: a write to a typed array; outside the array it is ignored. *)
Definition set (data : list Z) (i : Z) (v : Z) : list Z :=
  if decide (0 ≤ i) then <[Z.to_nat i := v]> data else data.

(** [new ImageData(width, height)]: zero-filled. *)
Definition newImageData (width height : Z) : ImageData.t :=
  ImageData.mk width height (replicate (Z.to_nat (4 * width * height)) 0).

(** ** Edge detector *)

Definition getGray (data : list Z) (x y width : Z) : Q :=
  let idx := (y * width + x) * 4 in
  inject_Z (get data idx + get data (idx + 1) + get data (idx + 2)) / 3.

(** [Math.sqrt(gx * gx + gy * gy) > t] for [t >= 0], decided on the
    squares ([sqrt] is monotone; see [magnitudeExceeds_sqrt]). *)
Definition magnitudeExceeds (gx gy t : Q) : bool :=
  Qltb (t * t) (gx * gx + gy * gy).

(** The Sobel responses computed in the body of the loop of [detectEdges]. *)
Definition sobelGx (data : list Z) (x y width : Z) : Q :=
  (-1 * getGray data (x - 1) (y - 1) width +
    1 * getGray data (x + 1) (y - 1) width +
   -2 * getGray data (x - 1) y width +
    2 * getGray data (x + 1) y width +
   -1 * getGray data (x - 1) (y + 1) width +
    1 * getGray data (x + 1) (y + 1) width)%Q.

Definition sobelGy (data : list Z) (x y width : Z) : Q :=
  (-1 * getGray data (x - 1) (y - 1) width +
   -2 * getGray data x (y - 1) width +
   -1 * getGray data (x + 1) (y - 1) width +
    1 * getGray data (x - 1) (y + 1) width +
    2 * getGray data x (y + 1) width +
    1 * getGray data (x + 1) (y + 1) width)%Q.

Definition edgeValue (data : list Z) (x y width : Z) : Z :=
  let gx := sobelGx data x y width in
  let gy := sobelGy data x y width in
  if magnitudeExceeds gx gy 50 then 255 else 0.

(** The body of the inner loop: the four writes for pixel [(x, y)]. *)
Definition detectPixel (data : list Z) (width : Z) (out : list Z) (x y : Z) : list Z :=
  let idx := (y * width + x) * 4 in
  let v := edgeValue data x y width in
  set (set (set (set out idx v) (idx + 1) v) (idx + 2) v) (idx + 3) 255.

Definition detectEdges (imageData : ImageData.t) : ImageData.t :=
  let data := ImageData.data imageData in
  let width := ImageData.width imageData in
  let height := ImageData.height imageData in
  let edges := newImageData width height in
  ImageData.mk width height
    (foldl (λ out y, foldl (λ out x, detectPixel data width out x y)
                           out (seqZ 1 (width - 2)))
           (ImageData.data edges) (seqZ 1 (height - 2))).

(** ** Region tracer *)

(** The key [`${x},${y}`] of the visited set.  The string is an injective
    rendering of the coordinate pair, so the set is modelled on pairs. *)
Definition key (p : Point.t) : Z * Z := (Point.x p, Point.y p).

(** [edges.data[idx] > 128] at the pixel's offset. *)
Definition isEdge (edges : ImageData.t) (p : Point.t) : bool :=
  let idx := (Point.y p * ImageData.width edges + Point.x p) * 4 in
  bool_decide (128 < get (ImageData.data edges) idx).

Definition inBounds (edges : ImageData.t) (p : Point.t) : bool :=
  bool_decide (0 ≤ Point.x p) && bool_decide (Point.x p < ImageData.width edges) &&
  bool_decide (0 ≤ Point.y p) && bool_decide (Point.y p < ImageData.height edges).

(** The nine offsets in the order of the loops on [dy] and [dx]. *)
Definition neighbours (p : Point.t) : list Point.t :=
  dy ← [-1; 0; 1];
  dx ← [-1; 0; 1];
  [Point.mk (Point.x p + dx) (Point.y p + dy)].

Module Trace.
(** The local state of [traceContour]; the top of [stack] is its head. *)
Record t : Type := mk {
  stack : list Point.t;
  contour : list Point.t;
  visited : gset (Z * Z)
}.
End Trace.

Definition pushNeighbours (edges : ImageData.t) (visited : gset (Z * Z))
    (p : Point.t) (stack : list Point.t) : list Point.t :=
  foldl (λ stack n,
           if inBounds edges n && negb (bool_decide (key n ∈ visited))
           then n :: stack else stack)
        stack (neighbours p).

(** The condition of the [while] loop. *)
Definition traceGuard (st : Trace.t) : bool :=
  bool_decide (Trace.stack st ≠ []) &&
  bool_decide (Z.of_nat (length (Trace.contour st)) < 1000).

(** One iteration of the [while] loop. *)
Definition traceStep (edges : ImageData.t) (st : Trace.t) : Trace.t :=
  match Trace.stack st with
  | [] => st
  | point :: stack =>
      if bool_decide (key point ∈ Trace.visited st)
      then Trace.mk stack (Trace.contour st) (Trace.visited st)
      else
        let visited := {[ key point ]} ∪ Trace.visited st in
        if isEdge edges point
        then Trace.mk (pushNeighbours edges visited point stack)
                      (Trace.contour st ++ [point]) visited
        else Trace.mk stack (Trace.contour st) visited
  end.

Fixpoint traceLoop (fuel : nat) (edges : ImageData.t) (st : Trace.t) : Trace.t :=
  match fuel with
  | O => st
  | S fuel =>
      if traceGuard st then traceLoop fuel edges (traceStep edges st) else st
  end.

(** An iteration either pops, or pops and adds a point and at most eight
    neighbours, and the loop stops at 1000 points: this quantity decreases
    at every iteration (see [traceStep_measure]). *)
Definition traceMeasure (st : Trace.t) : nat :=
  (Z.to_nat (9 * (1000 - Z.of_nat (length (Trace.contour st))))
   + length (Trace.stack st))%nat.

(** [traceContour] returns [contour]; [visited] is the caller's set, which
    it mutates, so the model returns the final state of both. *)
Definition traceState (edges : ImageData.t) (startX startY : Z)
    (visited : gset (Z * Z)) : Trace.t :=
  let st := Trace.mk [Point.mk startX startY] [] visited in
  traceLoop (traceMeasure st) edges st.

Definition traceContour (edges : ImageData.t) (startX startY : Z)
    (visited : gset (Z * Z)) : list Point.t * gset (Z * Z) :=
  let st := traceState edges startX startY visited in
  (Trace.contour st, Trace.visited st).

(** The body of the inner loop of [findContours] at pixel [(x, y)]. *)
Definition scanPixel (edges : ImageData.t)
    (acc : list (list Point.t) * gset (Z * Z)) (x y : Z)
    : list (list Point.t) * gset (Z * Z) :=
  let '(contours, visited) := acc in
  if bool_decide ((x, y) ∈ visited) then acc
  else if isEdge edges (Point.mk x y) then
    let '(contour, visited) := traceContour edges x y visited in
    if bool_decide (10 < length contour)%nat
    then (contours ++ [contour], visited)
    else (contours, visited)
  else acc.

Definition scanAll (edges : ImageData.t) : list (list Point.t) * gset (Z * Z) :=
  foldl (λ acc y, foldl (λ acc x, scanPixel edges acc x y)
                        acc (seqZ 0 (ImageData.width edges)))
        ([], ∅) (seqZ 0 (ImageData.height edges)).

Definition findContours (edges : ImageData.t) : list (list Point.t) :=
  fst (scanAll edges).

(** ** Classifier *)

(** [points[i]]; the loop of [calculateArea] reads only inside the array. *)
Definition pointAt (points : list Point.t) (i : nat) : Point.t :=
  default (Point.mk 0 0) (points !! i).

(** The accumulator of [calculateArea] holds integers; the division by two
    of the result is the first step that leaves them. *)
Definition calculateArea (points : list Point.t) : Q :=
  if bool_decide (length points < 3)%nat then 0%Q
  else
    let n := length points in
    let area :=
      foldl (λ area i,
               let j := ((i + 1) mod n)%nat in
               let area := area + Point.x (pointAt points i) * Point.y (pointAt points j) in
               area - Point.x (pointAt points j) * Point.y (pointAt points i))
            0 (seq 0 n) in
    (inject_Z (Z.abs area) / 2)%Q.

Module Bounds.
Record t : Type := mk {
  minX : Z; maxX : Z; minY : Z; maxY : Z; width : Z; height : Z
}.
End Bounds.

(** [Math.min(...xs)] and [Math.max(...xs)].  On no argument JavaScript
    yields [+Infinity] and [-Infinity]; the model yields [0] there.  The
    classifier uses the bounds only under [area > 200], which an empty
    contour (area [0]) never reaches. *)
Definition minOf (xs : list Z) : Z :=
  match xs with [] => 0 | a :: xs => foldl Z.min a xs end.

Definition maxOf (xs : list Z) : Z :=
  match xs with [] => 0 | a :: xs => foldl Z.max a xs end.

Definition getBounds (points : list Point.t) : Bounds.t :=
  let xs := Point.x <$> points in
  let ys := Point.y <$> points in
  let minX := minOf xs in
  let maxX := maxOf xs in
  let minY := minOf ys in
  let maxY := maxOf ys in
  Bounds.mk minX maxX minY maxY (maxX - minX) (maxY - minY).

(** [bounds.width / (bounds.height + 1e-9)]. *)
Definition aspectOf (bounds : Bounds.t) : Q :=
  (inject_Z (Bounds.width bounds) / (inject_Z (Bounds.height bounds) + (1 # 1000000000)))%Q.

Definition touchesBoundary (bounds : Bounds.t) (width height : Z) : bool :=
  bool_decide (Bounds.minX bounds ≤ 5) || bool_decide (Bounds.minY bounds ≤ 5) ||
  bool_decide (width - 5 ≤ Bounds.maxX bounds) || bool_decide (height - 5 ≤ Bounds.maxY bounds).

(** The [if] cascade of the loop body of [classifyContours]: the array the
    contour is pushed to, if any. *)
Definition classify (area : Q) (bounds : Bounds.t) (width height : Z)
    : option ContourType :=
  let aspect := aspectOf bounds in
  if Qltb 5000 area then
    if touchesBoundary bounds width height || Qltb 3 aspect || Qltb aspect (33 # 100)
    then Some wall else Some room
  else if Qltb 1000 area && Qle_bool area 5000 then
    if Qltb (4 # 10) aspect && Qltb aspect (25 # 10)
    then Some door else Some wall
  else if Qltb 200 area && Qle_bool area 1000 then
    if Qltb 2 aspect || Qltb aspect (5 # 10)
    then Some window else None
  else None.

Definition pushContour (acc : Classified.t) (c : Contour.t) : Classified.t :=
  match Contour.type c with
  | wall => Classified.mk (Classified.walls acc ++ [c]) (Classified.doors acc)
                          (Classified.windows acc) (Classified.rooms acc)
  | door => Classified.mk (Classified.walls acc) (Classified.doors acc ++ [c])
                          (Classified.windows acc) (Classified.rooms acc)
  | window => Classified.mk (Classified.walls acc) (Classified.doors acc)
                            (Classified.windows acc ++ [c]) (Classified.rooms acc)
  | room => Classified.mk (Classified.walls acc) (Classified.doors acc)
                          (Classified.windows acc) (Classified.rooms acc ++ [c])
  end.

(** The loop body of [classifyContours] for one contour. *)
Definition classifyOne (width height : Z) (points : list Point.t) : option Contour.t :=
  let area := calculateArea points in
  let bounds := getBounds points in
  match classify area bounds width height with
  | Some type => Some (Contour.mk points area type)
  | None => None
  end.

Definition classifyContours (contours : list (list Point.t)) (width height : Z)
    : Classified.t :=
  foldl (λ acc points,
           match classifyOne width height points with
           | Some c => pushContour acc c
           | None => acc
           end)
        (Classified.mk [] [] [] []) contours.

(** ** Rasterizer and entry point *)

Module HTMLImageElement.
(** A loaded image: its intrinsic size and its decoded pixels. *)
Record t : Type := mk { width : Z; height : Z; pixels : list Z }.
End HTMLImageElement.

Module Canvas.
(** [this.canvas] with the bitmap its context [this.ctx] draws on. *)
Record t : Type := mk { width : Z; height : Z; bitmap : list Z }.
End Canvas.

(** The two rejections of the promise of [processImage]:
    [new Error('Failed to load image')] from [img.onerror], and an exception
    of [analyzeFloorPlan] passed on by the [catch] of [img.onload]. *)
Inductive Error : Type := FailedToLoadImage | IndexSizeError.

Definition File : Type := list Byte.byte.

(** Web IDL conversion of a number to [unsigned long], the type of
    [canvas.width] and [canvas.height]: the integer part, modulo [2^32]. *)
Definition toUnsignedLong (v : Q) : Z := (Qnum v ÷ Zpos (Qden v)) `mod` 2 ^ 32.

(** Setting [canvas.width] or [canvas.height] replaces the bitmap by a
    transparent black one of the new size. *)
Definition setWidth (c : Canvas.t) (v : Q) : Canvas.t :=
  let w := toUnsignedLong v in
  Canvas.mk w (Canvas.height c) (replicate (Z.to_nat (4 * w * Canvas.height c)) 0).

Definition setHeight (c : Canvas.t) (v : Q) : Canvas.t :=
  let h := toUnsignedLong v in
  Canvas.mk (Canvas.width c) h (replicate (Z.to_nat (4 * Canvas.width c * h)) 0).

(** [ctx.getImageData(0, 0, sw, sh)]: an [IndexSizeError] exception when
    [sw] or [sh] is zero, else the [sw * sh] RGBA pixels of the bitmap. *)
Definition getImageData (c : Canvas.t) (sw sh : Z) : Error + ImageData.t :=
  if bool_decide (sw = 0 ∨ sh = 0) then inl IndexSizeError
  else inr (ImageData.mk sw sh (resize (Z.to_nat (4 * sw * sh)) 0 (Canvas.bitmap c))).

Section Platform.
(** The browser's image decoder: [None] when [img.onerror] fires. *)
Variable decode : File → option HTMLImageElement.t.
(** [ctx.drawImage(img, 0, 0, dw, dh)]: the bitmap after the image has
    been resampled to [dw × dh] and composited on the canvas. *)
Variable drawImage : HTMLImageElement.t → Z → Z → Canvas.t → list Z.

(** The state of an [ImageProcessor] is its canvas. *)
Definition analyzeFloorPlan (this : Canvas.t) (img : HTMLImageElement.t)
    : Canvas.t * (Error + ProcessingResult.t) :=
  let maxDim := 800%Q in
  let scale :=
    Qmin (Qmin (maxDim / inject_Z (HTMLImageElement.width img))
               (maxDim / inject_Z (HTMLImageElement.height img))) 1 in
  let this := setWidth this (inject_Z (HTMLImageElement.width img) * scale) in
  let this := setHeight this (inject_Z (HTMLImageElement.height img) * scale) in
  let this :=
    Canvas.mk (Canvas.width this) (Canvas.height this)
              (drawImage img (Canvas.width this) (Canvas.height this) this) in
  match getImageData this (Canvas.width this) (Canvas.height this) with
  | inl error => (this, inl error)
  | inr imageData =>
      let edges := detectEdges imageData in
      let contours := findContours edges in
      let classified :=
        classifyContours contours (Canvas.width this) (Canvas.height this) in
      (this,
       inr (ProcessingResult.mk
              (Classified.walls classified) (Classified.doors classified)
              (Classified.windows classified) (Classified.rooms classified)
              scale (Canvas.width this) (Canvas.height this)))
  end.

(** The promise of [processImage]: [inr] when resolved, [inl] when rejected. *)
Definition processImage (this : Canvas.t) (file : File)
    : Canvas.t * (Error + ProcessingResult.t) :=
  match decode file with
  | None => (this, inl FailedToLoadImage)
  | Some img => analyzeFloorPlan this img
  end.
End Platform.

(** * Specification vocabulary *)

#[global] Instance Point_countable : Countable Point.t :=
  inj_countable' key (λ k, Point.mk k.1 k.2) (λ p, match p with Point.mk _ _ => eq_refl end).

(** ** Edge masks and blobs *)

(** Two pixels are 8-adjacent when they differ by at most one in each
    coordinate. *)
Definition adj8 (p q : Point.t) : Prop :=
  Z.abs (Point.x p - Point.x q) ≤ 1 ∧ Z.abs (Point.y p - Point.y q) ≤ 1.

(** An edge pixel of a mask: a pixel of the image that the tracer reads as
    edge. *)
Definition edgePixel (edges : ImageData.t) (p : Point.t) : Prop :=
  inBounds edges p = true ∧ isEdge edges p = true.

(** [q] is reached from [p] through 8-adjacent edge pixels. *)
Definition reach (edges : ImageData.t) : relation Point.t :=
  rtc (λ a b, adj8 a b ∧ edgePixel edges b).

(** A blob: a set of pixels any two of which are joined by a chain of
    8-adjacent pixels of the set. *)
Definition connectedBlob (B : gset Point.t) : Prop :=
  ∀ p q, p ∈ B → q ∈ B → rtc (λ a b, adj8 a b ∧ b ∈ B) p q.

(** Two blobs are disjoint when no pixel of one is 8-adjacent to (or equal
    to) a pixel of the other. *)
Definition separated (B1 B2 : gset Point.t) : Prop :=
  ∀ p q, p ∈ B1 → q ∈ B2 → ¬ adj8 p q.

Definition edgeSetIs (edges : ImageData.t) (E : gset Point.t) : Prop :=
  ∀ p, p ∈ E ↔ edgePixel edges p.

(** Every region traced by the raster scan, kept or not: [scanPixel]
    without the test on the size. *)
Definition scanPixelAll (edges : ImageData.t)
    (acc : list (list Point.t) * gset (Z * Z)) (x y : Z)
    : list (list Point.t) * gset (Z * Z) :=
  let '(regions, visited) := acc in
  if bool_decide ((x, y) ∈ visited) then acc
  else if isEdge edges (Point.mk x y) then
    let '(contour, visited) := traceContour edges x y visited in
    (regions ++ [contour], visited)
  else acc.

Definition tracedRegions (edges : ImageData.t) : list (list Point.t) :=
  fst (foldl (λ acc y, foldl (λ acc x, scanPixelAll edges acc x y)
                             acc (seqZ 0 (ImageData.width edges)))
             ([], ∅) (seqZ 0 (ImageData.height edges))).

(** ** Sobel operator *)






Definition interior (width height x y : Z) : Prop :=
  1 ≤ x ≤ width - 2 ∧ 1 ≤ y ≤ height - 2.

(** ** Classifier *)

(** The decision table on the area [A], the aspect ratio and whether the
    bounds touch the boundary of the image. *)
Definition decisionTable (A aspect : Q) (touching : bool) : option ContourType :=
  if Qltb 5000 A then
    if touching || Qltb 3 aspect || Qltb aspect (33 # 100) then Some wall else Some room
  else if Qltb 1000 A && Qle_bool A 5000 then
    if Qltb (4 # 10) aspect && Qltb aspect (25 # 10) then Some door else Some wall
  else if Qltb 200 A && Qle_bool A 1000 then
    if Qltb 2 aspect || Qltb aspect (5 # 10) then Some window else None
  else None.

(** The bounds come within 5 pixels of an edge of the image. *)
Definition withinFive (bounds : Bounds.t) (width height : Z) : bool :=
  bool_decide (Bounds.minX bounds - 0 ≤ 5 ∨ Bounds.minY bounds - 0 ≤ 5 ∨
               width - Bounds.maxX bounds ≤ 5 ∨ height - Bounds.maxY bounds ≤ 5).

(** The contours of one category of the table, in the order of the input. *)
Definition ofType (width height : Z) (t : ContourType)
    (contours : list (list Point.t)) : list Contour.t :=
  omap (λ points,
          let A := calculateArea points in
          let b := getBounds points in
          match decisionTable A (aspectOf b) (withinFive b width height) with
          | Some t' => if decide (t' = t) then Some (Contour.mk points A t) else None
          | None => None
          end)
       contours.


(** The signed area of the polygon on the points, by the shoelace formula:
    half the sum of the cross products of consecutive vertices, the last
    one joined to the first. *)
Definition cross (p q : Point.t) : Z :=
  Point.x p * Point.y q - Point.x q * Point.y p.

Definition shoelace (points : list Point.t) : Q :=
  match points with
  | [] => 0%Q
  | p :: rest =>
      ((1 # 2) * inject_Z (foldr Z.add 0%Z (zip_with cross points (rest ++ [p]))))%Q
  end.

Definition allContours (r : Classified.t) : list Contour.t :=
  Classified.walls r ++ Classified.doors r ++ Classified.windows r ++ Classified.rooms r.

Definition resultContours (r : ProcessingResult.t) : list Contour.t :=
  ProcessingResult.walls r ++ ProcessingResult.doors r ++
  ProcessingResult.windows r ++ ProcessingResult.rooms r.

(** * Invariants, specification terms and examples *)

Record TraceBasic (e : ImageData.t) (V0 : gset (Z * Z)) (st : Trace.t) : Prop := {
  basic_nodup : NoDup (Trace.contour st);
  basic_length : Z.of_nat (length (Trace.contour st)) ≤ 1000;
  basic_contour : ∀ q, q ∈ Trace.contour st →
    key q ∈ Trace.visited st ∧ (key q ∉ V0) ∧ isEdge e q = true;
  basic_mono : V0 ⊆ Trace.visited st;
  basic_assigned : ∀ q, key q ∈ Trace.visited st → key q ∉ V0 →
    isEdge e q = true → q ∈ Trace.contour st
}.

Record TraceConn (e : ImageData.t) (start : Point.t) (st : Trace.t) : Prop := {
  conn_stack : ∀ q, q ∈ Trace.stack st →
    inBounds e q = true ∧ (q = start ∨ ∃ c, c ∈ Trace.contour st ∧ adj8 c q);
  conn_contour : ∀ q, q ∈ Trace.contour st → inBounds e q = true ∧ reach e start q;
  conn_closed : ∀ c n, c ∈ Trace.contour st → adj8 c n → inBounds e n = true →
    key n ∈ Trace.visited st ∨ n ∈ Trace.stack st;
  conn_start : key start ∈ Trace.visited st ∨ start ∈ Trace.stack st
}.

Definition raster (e : ImageData.t) : list (Z * Z) :=
  y ← seqZ 0 (ImageData.height e); x ← seqZ 0 (ImageData.width e); [(x, y)].

Definition interiorPixels (width height : Z) : list (Z * Z) :=
  y ← seqZ 1 (height - 2); x ← seqZ 1 (width - 2); [(x, y)].


(** [min(800 / origW, 800 / origH, 1)]. *)
Definition scaleFactor (origW origH : Z) : Q :=
  Qmin (Qmin (800 / inject_Z origW) (800 / inject_Z origH)) 1.

(** The sides of the working image: what the canvas keeps of
    [img.width * scale] and [img.height * scale]. *)
Definition workingWidth (img : HTMLImageElement.t) : Z :=
  toUnsignedLong (inject_Z (HTMLImageElement.width img) *
                  scaleFactor (HTMLImageElement.width img) (HTMLImageElement.height img)).

Definition workingHeight (img : HTMLImageElement.t) : Z :=
  toUnsignedLong (inject_Z (HTMLImageElement.height img) *
                  scaleFactor (HTMLImageElement.width img) (HTMLImageElement.height img)).



Definition transparentDraw (img : HTMLImageElement.t) (dw dh : Z) (c : Canvas.t) : list Z :=
  Canvas.bitmap c.

Definition emptyCanvas : Canvas.t := Canvas.mk 0 0 [].

(** A mask given by a predicate on the pixels: white opaque where it holds,
    black opaque elsewhere. *)
Definition maskOf (width height : Z) (f : Z → Z → bool) : ImageData.t :=
  ImageData.mk width height
    (y ← seqZ 0 height; x ← seqZ 0 width;
     if f x y then [255; 255; 255; 255] else [0; 0; 0; 255]).


(** The pixels [(a, y), ..., (a + n - 1, y)] of a row. *)
Definition segment (y a n : Z) : gset Point.t :=
  list_to_set ((λ x, Point.mk x y) <$> seqZ a n).

(** A row of 50 edge pixels and, two rows below, a row of 5. *)
Definition twoBlobMask : ImageData.t :=
  maskOf 60 5 (λ x y, bool_decide ((1 ≤ x ≤ 50 ∧ y = 1) ∨ (1 ≤ x ≤ 5 ∧ y = 3))).

(** A 3×3 image, black but for a white right column. *)
Definition stepImage : ImageData.t :=
  ImageData.mk 3 3
    (y ← seqZ 0 3; x ← seqZ 0 3;
     if bool_decide (x = 2) then [255; 255; 255; 255] else [0; 0; 0; 255]).

Definition edgeSetCheck (e : ImageData.t) (E : gset Point.t) : bool :=
  forallb (λ p, inBounds e p && isEdge e p) (elements E) &&
  forallb (λ p, implb (isEdge e (Point.mk p.1 p.2)) (bool_decide (Point.mk p.1 p.2 ∈ E)))
          (raster e).





(** The state in which [traceContour] enters its loop. *)
Definition traceInit (startX startY : Z) (visited : gset (Z * Z)) : Trace.t :=
  Trace.mk [Point.mk startX startY] [] visited.

(** The sum [R + G + B] of the colour bytes of a pixel. *)
Definition rgbSum (img : ImageData.t) (x y : Z) : Z :=
  let idx := (y * ImageData.width img + x) * 4 in
  get (ImageData.data img) idx + get (ImageData.data img) (idx + 1) +
  get (ImageData.data img) (idx + 2).


(** A grey 3×3 image. *)
Definition greyImage : ImageData.t :=
  ImageData.mk 3 3 (replicate 36 128).

(** The points moved by [(dx, dy)]. *)
Definition translate (dx dy : Z) (points : list Point.t) : list Point.t :=
  (λ p, Point.mk (Point.x p + dx) (Point.y p + dy)) <$> points.

(** Twelve pixels of one row. *)
Definition rowOfPixels : list Point.t := (λ x, Point.mk x 7) <$> seqZ 3 12.

(** An image of 640 by 480 pixels. *)
Definition smallImage : HTMLImageElement.t := HTMLImageElement.mk 640 480 [].

(** ** OBJ export ([components/ExportOptions.tsx])

    [exportToOBJ] builds the text of the file line by line; the model keeps
    the lines, each with the numbers the text would print. *)

Inductive ObjLine : Type :=
  | ObjComment (text : string)
  | ObjVertex (x y z : Q)
  | ObjFace (a b c d : Z).

(** [points.reduce] with [Math.min] from [Infinity] and with [Math.max]
    from [-Infinity]; [exportToOBJ] runs it on three points or more, where
    the first step replaces the infinite start by the first coordinate. *)
Definition reduceMin (f : Point.t → Q) (points : list Point.t) : Q :=
  match points with
  | [] => 0%Q
  | p :: rest => foldl (λ acc q, Qmin acc (f q)) (f p) rest
  end.

Definition reduceMax (f : Point.t → Q) (points : list Point.t) : Q :=
  match points with
  | [] => 0%Q
  | p :: rest => foldl (λ acc q, Qmax acc (f q)) (f p) rest
  end.

(** The body of [data.walls.forEach] on the pair of [objContent] and
    [vertexIndex]. *)
Definition exportWall (acc : list ObjLine * Z) (wall : Contour.t) : list ObjLine * Z :=
  let '(objContent, vertexIndex) := acc in
  if bool_decide (3 ≤ length (Contour.points wall))%nat then
    let minX := reduceMin (λ p, inject_Z (Point.x p) * (1 # 100))%Q (Contour.points wall) in
    let maxX := reduceMax (λ p, inject_Z (Point.x p) * (1 # 100))%Q (Contour.points wall) in
    let minY := reduceMin (λ p, - inject_Z (Point.y p) * (1 # 100))%Q (Contour.points wall) in
    let maxY := reduceMax (λ p, - inject_Z (Point.y p) * (1 # 100))%Q (Contour.points wall) in
    let vertices :=
      [ObjVertex minX 0 minY; ObjVertex maxX 0 minY; ObjVertex maxX 0 maxY;
       ObjVertex minX 0 maxY; ObjVertex minX 3 minY; ObjVertex maxX 3 minY;
       ObjVertex maxX 3 maxY; ObjVertex minX 3 maxY] in
    let objContent := objContent ++ vertices in
    let baseIndex := vertexIndex in
    let objContent :=
      objContent ++
      [ObjFace baseIndex (baseIndex + 1) (baseIndex + 2) (baseIndex + 3);
       ObjFace (baseIndex + 4) (baseIndex + 7) (baseIndex + 6) (baseIndex + 5);
       ObjFace baseIndex (baseIndex + 4) (baseIndex + 5) (baseIndex + 1);
       ObjFace (baseIndex + 2) (baseIndex + 6) (baseIndex + 7) (baseIndex + 3);
       ObjFace (baseIndex + 3) (baseIndex + 7) (baseIndex + 4) baseIndex;
       ObjFace (baseIndex + 1) (baseIndex + 5) (baseIndex + 6) (baseIndex + 2)] in
    (objContent, vertexIndex + 8)
  else acc.

Definition exportToOBJ (data : ProcessingResult.t) : list ObjLine :=
  (foldl exportWall ([ObjComment "Floor Plan 3D Model"], 1) (ProcessingResult.walls data)).1.

(** The number of vertex lines and of face lines. *)
Definition isVertex (line : ObjLine) : bool :=
  match line with ObjVertex _ _ _ => true | _ => false end.

Definition isFace (line : ObjLine) : bool :=
  match line with ObjFace _ _ _ _ => true | _ => false end.

Definition vertexCount (lines : list ObjLine) : Z :=
  Z.of_nat (length (filter (λ line, isVertex line) lines)).

Definition faceCount (lines : list ObjLine) : Z :=
  Z.of_nat (length (filter (λ line, isFace line) lines)).

(** A file is well indexed when each face names four distinct vertices
    among those declared above it, counted from 1; [n] is the number of
    vertices declared so far. *)
Fixpoint wellIndexedFrom (n : Z) (lines : list ObjLine) : Prop :=
  match lines with
  | [] => True
  | ObjComment _ :: lines => wellIndexedFrom n lines
  | ObjVertex _ _ _ :: lines => wellIndexedFrom (n + 1) lines
  | ObjFace a b c d :: lines =>
      (1 ≤ a ≤ n ∧ 1 ≤ b ≤ n ∧ 1 ≤ c ≤ n ∧ 1 ≤ d ≤ n ∧ NoDup [a; b; c; d]) ∧
      wellIndexedFrom n lines
  end.

(** ** File drop ([components/FileUpload.tsx]) *)

Module DroppedFile.
(** A [File] of a drop: its name and its MIME type. *)
Record t : Type := mk { name : string; type : string }.
End DroppedFile.

(** [handleDrop]: the file passed to [onFileSelect], if any. *)
Definition handleDrop (files : list DroppedFile.t) : option DroppedFile.t :=
  snd <$> list_find (λ file, String.prefix "image/" (DroppedFile.type file) = true) files.

(** ** Furniture of the scene ([components/FloorPlan3DViewer.tsx]) *)

Module FurnitureItem.
(** An entry of [items]: position, type and colour. *)
Record t : Type := mk { position : Q * Q * Q; type : string; color : string }.
End FurnitureItem.







(** * Proofs *)

(** * Loops *)

Lemma foldl_inner {A B C} (f : A → B → C → A) (a : A) (xs : list B) (y : C) :
  foldl (λ acc p, f acc p.1 p.2) a (x ← xs; [(x, y)]) = foldl (λ acc x, f acc x y) a xs.
Proof.
  revert a. induction xs as [|x xs IH]; intros a; [done|]. simpl. apply IH.
Qed.

Lemma foldl_nested {A B C} (f : A → B → C → A) (a : A) (xs : list B) (ys : list C) :
  foldl (λ acc y, foldl (λ acc x, f acc x y) acc xs) a ys
  = foldl (λ acc p, f acc p.1 p.2) a (y ← ys; x ← xs; [(x, y)]).
Proof.
  revert a. induction ys as [|y ys IH]; intros a; [done|].
  cbn [foldl mbind list_bind]. rewrite foldl_app, IH. f_equal.
  symmetry. apply foldl_inner.
Qed.

Lemma foldl_invariant {A B} (P : list B → A → Prop) (f : A → B → A) (a : A) (l : list B) :
  P [] a →
  (∀ pre x acc, P pre acc → x ∈ l → P (pre ++ [x]) (f acc x)) →
  P l (foldl f a l).
Proof.
  intros H0 Hstep.
  cut (∀ pre rest acc, P pre acc → rest ⊆ l → P (pre ++ rest) (foldl f acc rest)).
  { intros H. apply (H [] l a H0). done. }
  intros pre rest. revert pre. induction rest as [|x rest IH]; intros pre acc HP Hsub.
  - by rewrite app_nil_r.
  - simpl. replace (pre ++ x :: rest) with ((pre ++ [x]) ++ rest) by by rewrite <- app_assoc.
    apply IH; [apply Hstep; [done|]|]; set_solver.
Qed.

(** * The neighbourhood *)

Lemma elem_of_neighbours p q : q ∈ neighbours p ↔ adj8 p q.
Proof.
  destruct p as [a b], q as [c d]. unfold neighbours, adj8. cbn.
  rewrite !elem_of_cons, elem_of_nil. split.
  - intros H. destruct_or!; try done; simplify_eq; lia.
  - intros [H1 H2].
    assert (c = a + -1 ∨ c = a + 0 ∨ c = a + 1) as Hc by lia.
    assert (d = b + -1 ∨ d = b + 0 ∨ d = b + 1) as Hd by lia.
    destruct Hc as [-> | [-> | ->]], Hd as [-> | [-> | ->]]; tauto.
Qed.

Lemma length_neighbours p : length (neighbours p) = 9%nat.
Proof. done. Qed.

Lemma elem_of_pushNeighbours e V p s q :
  q ∈ pushNeighbours e V p s ↔
  q ∈ s ∨ (adj8 p q ∧ inBounds e q = true ∧ key q ∉ V).
Proof.
  unfold pushNeighbours. rewrite <- elem_of_neighbours.
  generalize (neighbours p). intros l. revert s.
  induction l as [|n l IH]; intros s; cbn [foldl].
  - set_solver.
  - rewrite IH. destruct (inBounds e n) eqn:Hb; cbn [andb].
    + case_bool_decide as Hv; cbn [negb]; rewrite ?elem_of_cons.
      * split; [tauto|]. intros [?|[[->|?] [? ?]]]; tauto.
      * split; [intros [[->|?]|?]; tauto|]. intros [?|[[->|?] [? ?]]]; tauto.
    + rewrite elem_of_cons. split; [tauto|].
      intros [?|[[->|?] [? ?]]]; [tauto|congruence|tauto].
Qed.

Lemma length_pushNeighbours e V p s :
  (length (pushNeighbours e V p s) ≤ length s + 9)%nat.
Proof.
  unfold pushNeighbours. rewrite <- (length_neighbours p).
  generalize (neighbours p). intros l. revert s.
  induction l as [|n l IH]; intros s; cbn [foldl length]; [lia|].
  etrans; [apply IH|]. destruct (_ && _); cbn [length]; lia.
Qed.

(** * The [while] loop of [traceContour] *)

Lemma traceGuard_true st :
  traceGuard st = true ↔
  Trace.stack st ≠ [] ∧ Z.of_nat (length (Trace.contour st)) < 1000.
Proof.
  unfold traceGuard. rewrite andb_true_iff, !bool_decide_eq_true. done.
Qed.

Lemma traceGuard_false st :
  traceGuard st = false ↔
  Trace.stack st = [] ∨ 1000 ≤ Z.of_nat (length (Trace.contour st)).
Proof.
  unfold traceGuard. rewrite andb_false_iff, !bool_decide_eq_false.
  destruct (decide (Trace.stack st = [])) as [Hs|Hs]; split; intros [?|?];
    solve [tauto | right; lia | left; tauto].
Qed.

Lemma traceStep_measure e st :
  traceGuard st = true → (traceMeasure (traceStep e st) < traceMeasure st)%nat.
Proof.
  intros [Hs Hc]%traceGuard_true. unfold traceStep, traceMeasure.
  destruct (Trace.stack st) as [|p s]; [done|].
  case_bool_decide; cbn [Trace.stack Trace.contour length]; [lia|].
  destruct (isEdge e p); cbn [Trace.stack Trace.contour length]; [|lia].
  rewrite length_app. cbn [length].
  pose proof (length_pushNeighbours e ({[key p]} ∪ Trace.visited st) p s). lia.
Qed.

Lemma traceLoop_invariant (P : Trace.t → Prop) e n st :
  P st → (∀ s, P s → traceGuard s = true → P (traceStep e s)) → P (traceLoop n e st).
Proof.
  intros H0 Hstep. revert st H0. induction n as [|n IH]; intros st H0; cbn [traceLoop]; [done|].
  destruct (traceGuard st) eqn:Hg; [|done]. apply IH. by apply Hstep.
Qed.

Lemma traceLoop_exit e n st :
  (traceMeasure st ≤ n)%nat → traceGuard (traceLoop n e st) = false.
Proof.
  revert st. induction n as [|n IH]; intros st Hm; cbn [traceLoop].
  - destruct (traceGuard st) eqn:Hg; [|done].
    apply (traceStep_measure e) in Hg. lia.
  - destruct (traceGuard st) eqn:Hg; [|done].
    apply IH. apply (traceStep_measure e) in Hg. lia.
Qed.

Lemma traceState_exit e x y V : traceGuard (traceState e x y V) = false.
Proof. apply traceLoop_exit. done. Qed.

Lemma key_inj p q : key p = key q → p = q.
Proof. destruct p, q. unfold key. cbn. congruence. Qed.

Lemma TraceBasic_init e V p : TraceBasic e V (Trace.mk [p] [] V).
Proof.
  split; cbn.
  - constructor.
  - lia.
  - intros q Hq. by apply elem_of_nil in Hq.
  - done.
  - intros q H1 H2. done.
Qed.

Lemma TraceBasic_step e V0 st :
  TraceBasic e V0 st → traceGuard st = true → TraceBasic e V0 (traceStep e st).
Proof.
  intros [Hnd Hlen Hc Hm Ha] [Hs Hl]%traceGuard_true.
  destruct st as [s c V]. unfold traceStep. cbn in *.
  destruct s as [|p s]; [done|].
  case_bool_decide as Hv; [by split|].
  destruct (isEdge e p) eqn:He; split; cbn.
  - apply NoDup_app. split_and!; [done| |apply NoDup_singleton].
    intros q Hq ->%list_elem_of_singleton. apply Hc in Hq as [? _]. done.
  - rewrite length_app. cbn. lia.
  - intros q [Hq| ->%list_elem_of_singleton]%elem_of_app.
    + apply Hc in Hq as (? & ? & ?). split_and!; [set_solver|done|done].
    + split_and!; [set_solver| |done]. intros ?. apply Hv. by apply Hm.
  - set_solver.
  - intros q [->%elem_of_singleton%key_inj|Hq]%elem_of_union Hn Hq'.
    + set_solver.
    + apply elem_of_app. left. by apply Ha.
  - done.
  - done.
  - intros q Hq. apply Hc in Hq as (? & ? & ?). split_and!; [set_solver|done|done].
  - set_solver.
  - intros q [->%elem_of_singleton%key_inj|Hq]%elem_of_union Hn Hq'.
    + congruence.
    + by apply Ha.
Qed.

Lemma traceState_basic e x y V : TraceBasic e V (traceState e x y V).
Proof.
  unfold traceState.
  apply (traceLoop_invariant (TraceBasic e V)); [apply TraceBasic_init|apply TraceBasic_step].
Qed.

Lemma TraceConn_init e V p :
  inBounds e p = true → TraceConn e p (Trace.mk [p] [] V).
Proof.
  intros Hp. split; cbn.
  - intros q ->%list_elem_of_singleton. auto.
  - intros q Hq. by apply elem_of_nil in Hq.
  - intros c n Hc. by apply elem_of_nil in Hc.
  - right. by apply list_elem_of_singleton.
Qed.

Lemma TraceConn_step e start st :
  TraceConn e start st → traceGuard st = true → TraceConn e start (traceStep e st).
Proof.
  intros [Hst Hco Hcl Hs0] _.
  destruct st as [s c V]. unfold traceStep. cbn in *.
  destruct s as [|p s]; [by split|].
  assert (inBounds e p = true ∧ (p = start ∨ ∃ c0, c0 ∈ c ∧ adj8 c0 p)) as [Hpb Hpr]
    by (apply Hst; left).
  case_bool_decide as Hv; [|destruct (isEdge e p) eqn:He]; split; cbn.
  - intros q Hq. apply Hst. by right.
  - done.
  - intros c0 n Hc0 Hadj Hn. destruct (Hcl c0 n Hc0 Hadj Hn) as [?|Hin]; [by left|].
    apply elem_of_cons in Hin as [->|?]; [by left|by right].
  - destruct Hs0 as [?|Hin]; [by left|].
    apply elem_of_cons in Hin as [->|?]; [by left|by right].
  - intros q [Hq|(Hadj & Hb & _)]%elem_of_pushNeighbours.
    + destruct (Hst q) as [? [?|(c0 & ? & ?)]]; [by right|by auto|].
      split; [done|]. right. exists c0. split; [apply elem_of_app; by left|done].
    + split; [done|]. right. exists p. split; [|done].
      apply elem_of_app. right. by apply list_elem_of_singleton.
  - intros q [Hq| ->%list_elem_of_singleton]%elem_of_app; [by apply Hco|].
    split; [done|]. destruct Hpr as [->|(c0 & Hc0 & Hadj)]; [apply rtc_refl|].
    eapply rtc_r; [by apply Hco|]. by split.
  - intros c0 n [Hc0| ->%list_elem_of_singleton]%elem_of_app Hadj Hn.
    + destruct (Hcl c0 n Hc0 Hadj Hn) as [?|Hin]; [left; set_solver|].
      apply elem_of_cons in Hin as [->|?]; [left; set_solver|].
      right. apply elem_of_pushNeighbours. by left.
    + destruct (decide (key n ∈ {[key p]} ∪ V)) as [?|Hnv]; [by left|].
      right. apply elem_of_pushNeighbours. right. done.
  - destruct Hs0 as [?|Hin]; [left; set_solver|].
    apply elem_of_cons in Hin as [->|?]; [left; set_solver|].
    right. apply elem_of_pushNeighbours. by left.
  - intros q Hq. apply Hst. by right.
  - done.
  - intros c0 n Hc0 Hadj Hn. destruct (Hcl c0 n Hc0 Hadj Hn) as [?|Hin]; [left; set_solver|].
    apply elem_of_cons in Hin as [->|?]; [left; set_solver|by right].
  - destruct Hs0 as [?|Hin]; [left; set_solver|].
    apply elem_of_cons in Hin as [->|?]; [left; set_solver|by right].
Qed.

Lemma traceState_conn e x y V :
  inBounds e (Point.mk x y) = true → TraceConn e (Point.mk x y) (traceState e x y V).
Proof.
  intros Hb. unfold traceState.
  apply (traceLoop_invariant (TraceConn e (Point.mk x y)));
    [by apply TraceConn_init|apply TraceConn_step].
Qed.

(** The first point of a traced region is the pixel the trace starts from. *)
Lemma traceState_head e x y V :
  (x, y) ∉ V → isEdge e (Point.mk x y) = true →
  head (Trace.contour (traceState e x y V)) = Some (Point.mk x y).
Proof.
  intros Hv He. unfold traceState.
  change (traceMeasure _) with (S (Z.to_nat 9000)).
  cbn [traceLoop]. change (traceGuard _) with true. cbv iota.
  unfold traceStep at 1. cbn [Trace.stack Trace.visited Trace.contour].
  rewrite bool_decide_eq_false_2 by done. rewrite He. cbn [app].
  apply (traceLoop_invariant (λ st, head (Trace.contour st) = Some (Point.mk x y))); [done|].
  intros [s c V'] Hh _. unfold traceStep. cbn in *.
  destruct s as [|p s]; [done|]. case_bool_decide; [done|].
  destruct (isEdge e p); [|done]. cbn. destruct c; [done|]. done.
Qed.

Lemma elem_of_raster e x y :
  (x, y) ∈ raster e ↔ inBounds e (Point.mk x y) = true.
Proof.
  unfold raster, inBounds. cbn [Point.x Point.y].
  rewrite !andb_true_iff, !bool_decide_eq_true, list_elem_of_bind. split.
  - intros (y' & (x' & Hx & Hx')%list_elem_of_bind & Hy).
    apply list_elem_of_singleton in Hx. simplify_eq.
    apply elem_of_seqZ in Hx', Hy. lia.
  - intros H. exists y. split; [|apply elem_of_seqZ; lia].
    apply list_elem_of_bind. exists x. split; [by apply list_elem_of_singleton|].
    apply elem_of_seqZ. lia.
Qed.

Lemma scanAll_raster e :
  scanAll e = foldl (λ acc p, scanPixel e acc p.1 p.2) ([], ∅) (raster e).
Proof. unfold scanAll. apply (foldl_nested (scanPixel e)). Qed.

Lemma tracedRegions_raster e :
  tracedRegions e = fst (foldl (λ acc p, scanPixelAll e acc p.1 p.2) ([], ∅) (raster e)).
Proof. unfold tracedRegions. f_equal. apply (foldl_nested (scanPixelAll e)). Qed.

(** When a trace ends with an empty stack, it has collected every pixel
    reached from its start, provided none of them was visited before. *)
Lemma traceState_closed e x y V :
  inBounds e (Point.mk x y) = true →
  isEdge e (Point.mk x y) = true →
  (∀ q, reach e (Point.mk x y) q → key q ∉ V) →
  Trace.stack (traceState e x y V) = [] →
  ∀ q, reach e (Point.mk x y) q → q ∈ Trace.contour (traceState e x y V).
Proof.
  intros Hb He HV Hstack.
  pose proof (traceState_basic e x y V) as [_ _ _ _ Ha].
  pose proof (traceState_conn e x y V Hb) as [_ _ Hcl Hs0].
  rewrite Hstack in *.
  apply (rtc_ind_r (λ q, q ∈ Trace.contour (traceState e x y V)));
    [|intros a b Hab [Hadj [Hbb Hbe]] IH].
  - apply Ha; [|apply HV, rtc_refl|done].
    destruct Hs0 as [?|Hin]; [done|]. by apply elem_of_nil in Hin.
  - apply Ha; [|apply HV; eapply rtc_r; [done|by split]|done].
    destruct (Hcl a b IH Hadj Hbb) as [?|Hin]; [done|]. by apply elem_of_nil in Hin.
Qed.

(** A trace that starts in a component smaller than the cap, none of whose
    pixels is visited, collects exactly the component. *)
Lemma traceState_component e x y V (B : gset Point.t) :
  inBounds e (Point.mk x y) = true →
  isEdge e (Point.mk x y) = true →
  (∀ q, reach e (Point.mk x y) q ↔ q ∈ B) →
  (∀ q, q ∈ B → key q ∉ V) →
  Z.of_nat (size B) < 1000 →
  NoDup (Trace.contour (traceState e x y V)) ∧
  list_to_set (Trace.contour (traceState e x y V)) = B.
Proof.
  intros Hb He HB HV Hsz.
  pose proof (traceState_basic e x y V) as [Hnd Hlen _ _ _].
  pose proof (traceState_conn e x y V Hb) as [_ Hco _ _].
  pose proof (traceState_exit e x y V) as Hex.
  assert (Hsub : ∀ q, q ∈ Trace.contour (traceState e x y V) → q ∈ B).
  { intros q Hq. apply HB. by apply Hco. }
  assert (Hstack : Trace.stack (traceState e x y V) = []).
  { apply traceGuard_false in Hex as [?|Hbig]; [done|]. exfalso.
    assert (size (list_to_set (C:=gset Point.t) (Trace.contour (traceState e x y V)))
            ≤ size B)%nat as Hle.
    { apply subseteq_size. intros q Hq%elem_of_list_to_set. by apply Hsub. }
    rewrite size_list_to_set in Hle by done. lia. }
  split; [done|]. apply set_eq. intros q. rewrite elem_of_list_to_set.
  split; [apply Hsub|]. intros Hq%HB. revert q Hq.
  apply traceState_closed; [done|done| |done]. intros q Hq. by apply HV, HB.
Qed.

Lemma foldl_related {A B C} (R : A → B → Prop) (f : A → C → A) (g : B → C → B) a b l :
  R a b → (∀ a b x, R a b → R (f a x) (g b x)) → R (foldl f a l) (foldl g b l).
Proof.
  intros H0 Hs. revert a b H0. induction l as [|x l IH]; intros a b H0; [done|].
  cbn. apply IH. by apply Hs.
Qed.

Lemma findContours_filter e :
  findContours e = filter (λ c, 10 < length c)%nat (tracedRegions e).
Proof.
  unfold findContours. rewrite scanAll_raster, tracedRegions_raster.
  apply (foldl_related (λ a b, a.2 = b.2 ∧ a.1 = filter (λ c, 10 < length c)%nat b.1)
           (λ acc p, scanPixel e acc p.1 p.2) (λ acc p, scanPixelAll e acc p.1 p.2)).
  { done. }
  intros [cs V] [rs V'] [x y] [HV Hcs]. cbn in HV, Hcs. subst V' cs.
  unfold scanPixel, scanPixelAll. cbn [fst snd].
  case_bool_decide; [done|]. destruct (isEdge e _); [|done].
  destruct (traceContour e x y V) as [c V1]. cbn [fst snd].
  rewrite filter_app, filter_cons, filter_nil.
  case_bool_decide; destruct (decide _); try lia; cbn [fst snd]; by rewrite ?app_nil_r.
Qed.

Lemma scanAll_invariant (e : ImageData.t) (P : list (list Point.t) * gset (Z * Z) → Prop) :
  P ([], ∅) →
  (∀ cs V x y, P (cs, V) → inBounds e (Point.mk x y) = true → (x, y) ∉ V →
     isEdge e (Point.mk x y) = true →
     P (if bool_decide (10 < length (Trace.contour (traceState e x y V)))%nat
        then (cs ++ [Trace.contour (traceState e x y V)], Trace.visited (traceState e x y V))
        else (cs, Trace.visited (traceState e x y V)))) →
  P (scanAll e).
Proof.
  intros H0 Hs. rewrite scanAll_raster.
  apply (foldl_invariant (λ _ acc, P acc)); [done|].
  intros _ [x y] [cs V] HP Hin%elem_of_raster. unfold scanPixel. cbn [fst snd].
  case_bool_decide; [done|]. destruct (isEdge e _) eqn:He; [|done].
  unfold traceContour. by apply Hs.
Qed.

Lemma tracedRegions_length e :
  Forall (λ c, Z.of_nat (length c) ≤ 1000) (tracedRegions e).
Proof.
  rewrite tracedRegions_raster.
  apply (foldl_invariant (λ _ acc, Forall (λ c, Z.of_nat (length c) ≤ 1000) acc.1)); [done|].
  intros _ [x y] [cs V] HP _. unfold scanPixelAll. cbn [fst snd] in *.
  case_bool_decide; [done|]. destruct (isEdge e _); [|done].
  unfold traceContour. cbn. apply Forall_app. split; [done|].
  apply Forall_singleton. apply (traceState_basic e x y V).
Qed.

Lemma findContours_sound e :
  Forall (λ c, NoDup c ∧ Forall (edgePixel e) c) (findContours e).
Proof.
  unfold findContours.
  apply (scanAll_invariant e (λ acc, Forall (λ c, NoDup c ∧ Forall (edgePixel e) c) acc.1));
    [done|].
  intros cs V x y HP Hb Hv He. case_bool_decide; [|done]. cbn in *.
  apply Forall_app. split; [done|]. apply Forall_singleton.
  pose proof (traceState_basic e x y V) as [Hnd _ Hc _ _].
  pose proof (traceState_conn e x y V Hb) as [_ Hco _ _].
  split; [done|]. apply Forall_forall. intros q Hq. split; [by apply Hco|by apply Hc].
Qed.

Lemma adj8_refl p : adj8 p p.
Proof. unfold adj8. lia. Qed.

Lemma adj8_sym p q : adj8 p q → adj8 q p.
Proof. unfold adj8. lia. Qed.

Lemma separated_sym B1 B2 : separated B1 B2 → separated B2 B1.
Proof. intros H p q Hp Hq Ha. by apply (H q p Hq Hp), adj8_sym. Qed.

(** In a mask made of two separated blobs, the pixels reached from a pixel
    of a blob are the pixels of that blob. *)
Lemma blob_component e (B B' : gset Point.t) p :
  edgeSetIs e (B ∪ B') → connectedBlob B → separated B B' → p ∈ B →
  ∀ q, reach e p q ↔ q ∈ B.
Proof.
  intros HE Hconn Hsep Hp q. split.
  - revert q. apply (rtc_ind_r (λ q, q ∈ B)); [done|].
    intros a b _ [Hadj Hb] Ha. apply HE in Hb. apply elem_of_union in Hb as [?|Hb]; [done|].
    by destruct (Hsep a b).
  - intros Hq. unfold reach. eapply rtc_subrel; [|by apply Hconn].
    intros a b [Hadj Hb]. split; [done|]. apply HE. by apply elem_of_union_l.
Qed.

Lemma trace_blob e (B B' : gset Point.t) x y V :
  edgeSetIs e (B ∪ B') → connectedBlob B → separated B B' →
  Z.of_nat (size B) < 1000 →
  Point.mk x y ∈ B → (x, y) ∉ V →
  ((∀ q, q ∈ B → key q ∈ V) ∨ (∀ q, q ∈ B → key q ∉ V)) →
  NoDup (Trace.contour (traceState e x y V)) ∧
  list_to_set (Trace.contour (traceState e x y V)) = B ∧
  V ⊆ Trace.visited (traceState e x y V) ∧
  (∀ q, q ∈ B → key q ∈ Trace.visited (traceState e x y V)) ∧
  (∀ q, q ∈ B' → key q ∈ Trace.visited (traceState e x y V) → key q ∈ V).
Proof.
  intros HE Hconn Hsep Hsz Hp Hv Hall.
  assert (HBV : ∀ q, q ∈ B → key q ∉ V).
  { destruct Hall as [Hall|?]; [|done]. by destruct Hv; apply (Hall _ Hp). }
  assert (edgePixel e (Point.mk x y)) as [Hb He] by (apply HE; by apply elem_of_union_l).
  destruct (traceState_component e x y V B Hb He) as [Hnd Hset];
    [by apply blob_component with B'|done|done|].
  pose proof (traceState_basic e x y V) as [_ _ Hc Hm Ha].
  split_and!; [done|done|done| |].
  - intros q Hq. rewrite <- Hset in Hq. apply elem_of_list_to_set in Hq. by apply Hc.
  - intros q Hq Hq'. destruct (decide (key q ∈ V)) as [|Hn]; [done|]. exfalso.
    assert (q ∈ B) as HqB.
    { rewrite <- Hset. apply elem_of_list_to_set. apply Ha; [done|done|].
      apply HE. by apply elem_of_union_r. }
    apply (Hsep q q HqB Hq), adj8_refl.
Qed.

Lemma length_contour_size (c : list Point.t) (B : gset Point.t) :
  NoDup c → list_to_set c = B → length c = size B.
Proof. intros Hnd <-. by rewrite size_list_to_set. Qed.


(** C9.  For a mask whose edge pixels are two disjoint 8-connected blobs,
    one of 50 pixels and one of 5, the region tracer outputs exactly one
    contour, and its points are the pixels of the 50-pixel blob, each
    once. *)
Theorem findContours_two_blobs e (B1 B2 : gset Point.t) :
  edgeSetIs e (B1 ∪ B2) → connectedBlob B1 → connectedBlob B2 → separated B1 B2 →
  size B1 = 50%nat → size B2 = 5%nat →
  ∃ c, findContours e = [c] ∧ NoDup c ∧ list_to_set c = B1.
Proof.
  intros HE Hc1 Hc2 Hsep Hs1 Hs2.
  assert (Z.of_nat (size B1) = 50) as Hz1 by (rewrite Hs1; reflexivity).
  assert (Z.of_nat (size B2) = 5) as Hz2 by (rewrite Hs2; reflexivity).
  clear Hs1 Hs2. unfold findContours. rewrite scanAll_raster.
  set (I := λ (pre : list (Z * Z)) (acc : list (list Point.t) * gset (Z * Z)),
    (∀ x y, (x, y) ∈ pre → isEdge e (Point.mk x y) = true → (x, y) ∈ acc.2) ∧
    ((∀ q, q ∈ B1 → key q ∈ acc.2) ∨ (∀ q, q ∈ B1 → key q ∉ acc.2)) ∧
    ((∀ q, q ∈ B2 → key q ∈ acc.2) ∨ (∀ q, q ∈ B2 → key q ∉ acc.2)) ∧
    ((acc.1 = [] ∧ ∀ q, q ∈ B1 → key q ∉ acc.2) ∨
     (∃ c, acc.1 = [c] ∧ NoDup c ∧ list_to_set c = B1 ∧ ∀ q, q ∈ B1 → key q ∈ acc.2))).
  assert (HE' : edgeSetIs e (B2 ∪ B1)).
  { intros p. split; [intros Hp; apply HE|intros Hp%HE]; set_solver. }
  assert (Hfin : I (raster e) (foldl (λ acc p, scanPixel e acc p.1 p.2) ([], ∅) (raster e))).
  { apply (foldl_invariant I).
    { split_and!; [by intros x y ?%elem_of_nil|right|right|left]; set_solver. }
    intros pre [x y] [cs V] (I1 & I2 & I3 & I4) Hin%elem_of_raster. cbn [fst snd] in *.
    unfold scanPixel. case_bool_decide as Hv.
    { split_and!; [|done..]. intros x' y' [?| ->%list_elem_of_singleton]%elem_of_app; [eauto|].
      intros _. simplify_eq. done. }
    destruct (isEdge e (Point.mk x y)) eqn:He.
    2:{ split_and!; [|done..]. intros x' y' [?| Heq%list_elem_of_singleton]%elem_of_app; [eauto|].
        simplify_eq. congruence. }
    unfold traceContour.
    assert (Point.mk x y ∈ B1 ∪ B2) as [Hp|Hp]%elem_of_union by (by apply HE).
    - destruct (trace_blob e B1 B2 x y V HE Hc1 Hsep) as (Hnd & Hset & Hm & Hin1 & Hin2);
        [lia|exact Hp|exact Hv|exact I2|].
      pose proof (length_contour_size _ B1 Hnd Hset) as Hlen.
      generalize dependent (traceState e x y V). intros st Hnd Hset Hm Hin1 Hin2 Hlen.
      rewrite bool_decide_eq_true_2 by lia. cbn [fst snd].
      assert (cs = []) as ->.
      { destruct I4 as [[? ?]|(c & _ & _ & _ & Hall)]; [done|].
        destruct Hv. apply (Hall _ Hp). }
      split_and!.
      + intros x' y' [?| Heq%list_elem_of_singleton]%elem_of_app ?; [apply Hm; eauto|].
        simplify_eq. apply (Hin1 _ Hp).
      + by left.
      + destruct I3 as [I3|I3]; [left|right].
        * intros q Hq. by apply Hm, I3.
        * intros q Hq Hq'. by apply (I3 q), Hin2.
      + right. eexists. split_and!; done.
    - destruct (trace_blob e B2 B1 x y V HE' Hc2 (separated_sym _ _ Hsep))
        as (Hnd & Hset & Hm & Hin1 & Hin2); [lia|exact Hp|exact Hv|exact I3|].
      pose proof (length_contour_size _ B2 Hnd Hset) as Hlen.
      generalize dependent (traceState e x y V). intros st Hnd Hset Hm Hin1 Hin2 Hlen.
      rewrite bool_decide_eq_false_2 by lia. cbn [fst snd].
      split_and!.
      + intros x' y' [?| Heq%list_elem_of_singleton]%elem_of_app ?; [apply Hm; eauto|].
        simplify_eq. apply (Hin1 _ Hp).
      + destruct I2 as [I2|I2]; [left|right].
        * intros q Hq. by apply Hm, I2.
        * intros q Hq Hq'. by apply (I2 q), Hin2.
      + by left.
      + destruct I4 as [[-> I4]|(c & -> & ? & ? & I4)].
        * left. split; [done|]. intros q Hq Hq'. by apply (I4 q), Hin2.
        * right. exists c. split_and!; [done..|]. intros q Hq. by apply Hm, I4. }
  destruct Hfin as (I1 & _ & _ & [[_ Hno]|(c & Hcs & Hnd & Hset & _)]).
  - exfalso. destruct (set_choose_or_empty B1) as [[[x y] Hq]|Hemp%size_empty_iff]; [|lia].
    apply (Hno _ Hq). assert (edgePixel e (Point.mk x y)) as [Hb He].
    { apply HE. by apply elem_of_union_l. }
    apply I1; [by apply elem_of_raster|done].
  - exists c. done.
Qed.

(** * Typed arrays *)

Lemma length_set d i v : length (set d i v) = length d.
Proof. unfold set. case_decide; [apply length_insert|done]. Qed.

Lemma get_set_eq d i v : 0 ≤ i < Z.of_nat (length d) → get (set d i v) i = v.
Proof.
  intros H. unfold get, set. rewrite !decide_True by lia.
  rewrite list_lookup_insert_eq by lia. done.
Qed.

Lemma get_set_ne d i j v : i ≠ j → get (set d i v) j = get d j.
Proof.
  intros H. unfold get, set. case_decide; [|done]. case_decide; [|done].
  rewrite list_lookup_insert_ne by lia. done.
Qed.

Lemma get_replicate n i : get (replicate n 0) i = 0.
Proof.
  unfold get. case_decide; [|done].
  destruct (replicate n 0 !! Z.to_nat i) eqn:E; [|done].
  apply lookup_replicate in E as [-> _]. done.
Qed.

(** * The loops of [detectEdges] *)

Lemma elem_of_interiorPixels w h x y :
  (x, y) ∈ interiorPixels w h ↔ interior w h x y.
Proof.
  unfold interiorPixels, interior. rewrite list_elem_of_bind. split.
  - intros (y' & (x' & Hx & Hx')%list_elem_of_bind & Hy).
    apply list_elem_of_singleton in Hx. simplify_eq.
    apply elem_of_seqZ in Hx', Hy. lia.
  - intros H. exists y. split; [|apply elem_of_seqZ; lia].
    apply list_elem_of_bind. exists x. split; [by apply list_elem_of_singleton|].
    apply elem_of_seqZ. lia.
Qed.

Lemma detectEdges_interiorPixels img :
  ImageData.data (detectEdges img) =
  foldl (λ out p, detectPixel (ImageData.data img) (ImageData.width img) out p.1 p.2)
        (replicate (Z.to_nat (4 * ImageData.width img * ImageData.height img)) 0)
        (interiorPixels (ImageData.width img) (ImageData.height img)).
Proof.
  unfold detectEdges. cbn [ImageData.data newImageData].
  apply (foldl_nested (detectPixel (ImageData.data img) (ImageData.width img))).
Qed.

Lemma length_detectPixel data w out x y :
  length (detectPixel data w out x y) = length out.
Proof. unfold detectPixel. by rewrite !length_set. Qed.

Lemma length_detectLoop data w out l :
  length (foldl (λ out p, detectPixel data w out p.1 p.2) out l) = length out.
Proof.
  revert out. induction l as [|p l IH]; intros out; [done|].
  cbn [foldl]. by rewrite IH, length_detectPixel.
Qed.

Lemma pixel_offset_inj w x y x0 y0 :
  0 ≤ x < w → 0 ≤ x0 < w → y * w + x = y0 * w + x0 → x = x0 ∧ y = y0.
Proof.
  intros Hx Hx0 H. assert (y = y0) by nia. subst. lia.
Qed.

(** The byte of channel [c] of pixel [(x0, y0)] after the four writes for
    pixel [(x, y)]. *)
Lemma get_detectPixel data w out x y x0 y0 c :
  0 ≤ x < w → 0 ≤ y → 0 ≤ x0 < w → 0 ≤ c < 4 →
  (y * w + x) * 4 + 3 < Z.of_nat (length out) →
  get (detectPixel data w out x y) ((y0 * w + x0) * 4 + c) =
  if decide ((x, y) = (x0, y0))
  then (if decide (c = 3) then 255 else edgeValue data x y w)
  else get out ((y0 * w + x0) * 4 + c).
Proof.
  intros Hx Hy Hx0 Hc Hlen. unfold detectPixel.
  destruct (decide ((x, y) = (x0, y0))) as [Heq|Heq].
  - simplify_eq. assert (0 ≤ y0 * w + x0) by nia.
    assert (c = 0 ∨ c = 1 ∨ c = 2 ∨ c = 3) as Hcs by lia.
    destruct Hcs as [-> | [-> | [-> | ->]]]; cbn [decide_rel]; case_decide; try lia.
    + rewrite !get_set_ne by lia. rewrite Z.add_0_r. apply get_set_eq. lia.
    + rewrite !get_set_ne by lia. apply get_set_eq. rewrite length_set. lia.
    + rewrite !get_set_ne by lia. apply get_set_eq. rewrite !length_set. lia.
    + apply get_set_eq. rewrite !length_set. lia.
  - assert (y * w + x ≠ y0 * w + x0).
    { intros E. apply Heq. by destruct (pixel_offset_inj w x y x0 y0 Hx Hx0 E) as [-> ->]. }
    rewrite !get_set_ne by lia. done.
Qed.

Lemma get_detectLoop data w out l x0 y0 c :
  0 ≤ x0 < w → 0 ≤ c < 4 →
  (∀ x y, (x, y) ∈ l → 0 ≤ x < w ∧ 0 ≤ y ∧ (y * w + x) * 4 + 3 < Z.of_nat (length out)) →
  get (foldl (λ out p, detectPixel data w out p.1 p.2) out l) ((y0 * w + x0) * 4 + c) =
  if decide ((x0, y0) ∈ l)
  then (if decide (c = 3) then 255 else edgeValue data x0 y0 w)
  else get out ((y0 * w + x0) * 4 + c).
Proof.
  intros Hx0 Hc. induction l as [|[x y] l IH] using rev_ind; intros Hl.
  - cbn. rewrite decide_False; [done|]. by intros ?%elem_of_nil.
  - rewrite foldl_app. cbn [foldl fst snd].
    destruct (Hl x y) as (Hx & Hy & Hlen); [apply elem_of_app; right; by left|].
    rewrite get_detectPixel; [|done..|by rewrite length_detectLoop].
    destruct (decide ((x, y) = (x0, y0))) as [Heq|Heq].
    + simplify_eq. destruct (decide (_ ∈ _ ++ _)) as [|Hn]; [done|].
      destruct Hn. apply elem_of_app. right. by left.
    + rewrite IH by (intros ? ? ?; apply Hl, elem_of_app; by left).
      destruct (decide ((x0, y0) ∈ l)) as [Hin|Hin];
        destruct (decide (_ ∈ _ ++ _)) as [Hin'|Hin']; [done| | |done].
      * destruct Hin'. apply elem_of_app. by left.
      * apply elem_of_app in Hin' as [?|Hin'%list_elem_of_singleton]; [done|congruence].
Qed.

(** Every byte of the mask: edge value and opaque alpha on the interior,
    zero on the border. *)
Lemma get_detectEdges img x y c :
  inBounds img (Point.mk x y) = true → 0 ≤ c < 4 →
  get (ImageData.data (detectEdges img)) ((y * ImageData.width img + x) * 4 + c) =
  if decide (interior (ImageData.width img) (ImageData.height img) x y)
  then (if decide (c = 3) then 255 else edgeValue (ImageData.data img) x y (ImageData.width img))
  else 0.
Proof.
  unfold inBounds. cbn [Point.x Point.y].
  rewrite !andb_true_iff, !bool_decide_eq_true. intros Hb Hc.
  rewrite detectEdges_interiorPixels. rewrite get_detectLoop; [|lia|done|].
  - destruct (decide (_ ∈ _)) as [Hin|Hin]; rewrite elem_of_interiorPixels in Hin;
      destruct (decide (interior _ _ _ _)); try done. apply get_replicate.
  - intros x' y' [Hx' Hy']%elem_of_interiorPixels. rewrite length_replicate. nia.
Qed.

Lemma width_detectEdges img : ImageData.width (detectEdges img) = ImageData.width img.
Proof. done. Qed.

Lemma height_detectEdges img : ImageData.height (detectEdges img) = ImageData.height img.
Proof. done. Qed.

Lemma inBounds_detectEdges img p : inBounds (detectEdges img) p = inBounds img p.
Proof. done. Qed.

Lemma isEdge_detectEdges img x y :
  inBounds img (Point.mk x y) = true →
  isEdge (detectEdges img) (Point.mk x y) =
  bool_decide (interior (ImageData.width img) (ImageData.height img) x y) &&
  magnitudeExceeds (sobelGx (ImageData.data img) x y (ImageData.width img))
                   (sobelGy (ImageData.data img) x y (ImageData.width img)) 50.
Proof.
  intros Hb. unfold isEdge. cbn [Point.x Point.y]. rewrite width_detectEdges.
  pose proof (get_detectEdges img x y 0 Hb) as H. rewrite Z.add_0_r in H.
  rewrite H by lia. case_decide as Hi.
  - rewrite (bool_decide_eq_true_2 _ Hi). cbn [andb decide_rel]. unfold edgeValue.
    destruct (magnitudeExceeds _ _ _); by compute.
  - rewrite (bool_decide_eq_false_2 _ Hi). done.
Qed.

Lemma Qltb_lt a b : Qltb a b = true ↔ (a < b)%Q.
Proof.
  unfold Qltb. rewrite negb_true_iff, <- not_true_iff_false, Qle_bool_iff.
  split; [apply Qnot_le_lt|apply Qlt_not_le].
Qed.

#[global] Instance Qltb_proper : Proper (Qeq ==> Qeq ==> eq) Qltb.
Proof. intros a a' Ha b b' Hb. unfold Qltb. by rewrite Ha, Hb. Qed.







#[global] Instance magnitudeExceeds_proper :
  Proper (Qeq ==> Qeq ==> Qeq ==> eq) magnitudeExceeds.
Proof. intros a a' Ha b b' Hb t t' Ht. unfold magnitudeExceeds. by rewrite Ha, Hb, Ht. Qed.


(** * The classifier *)

Lemma touchesBoundary_withinFive b w h : touchesBoundary b w h = withinFive b w h.
Proof.
  unfold touchesBoundary, withinFive.
  repeat case_bool_decide; cbn; try done; exfalso; lia.
Qed.

Lemma classify_decisionTable A b w h :
  classify A b w h = decisionTable A (aspectOf b) (withinFive b w h).
Proof. unfold classify, decisionTable. by rewrite touchesBoundary_withinFive. Qed.

Lemma ofType_snoc w h t contours points :
  ofType w h t (contours ++ [points]) =
  ofType w h t contours ++
  match classifyOne w h points with
  | Some c => if decide (Contour.type c = t) then [c] else []
  | None => []
  end.
Proof.
  unfold ofType. rewrite omap_app. f_equal. cbn [omap list_omap].
  unfold classifyOne. rewrite classify_decisionTable.
  destruct (decisionTable _ _ _) as [t'|]; [|done].
  cbn [Contour.type]. destruct (decide (t' = t)); [by subst|done].
Qed.

Lemma classifyContours_ofType contours w h :
  classifyContours contours w h =
  Classified.mk (ofType w h wall contours) (ofType w h door contours)
                (ofType w h window contours) (ofType w h room contours).
Proof.
  unfold classifyContours.
  induction contours as [|points contours IH] using rev_ind; [done|].
  rewrite foldl_app, IH, !ofType_snoc. cbn [foldl].
  destruct (classifyOne w h points) as [c|]; [|by rewrite !app_nil_r].
  unfold pushContour. cbn [Classified.walls Classified.doors Classified.windows Classified.rooms].
  destruct (Contour.type c); cbn; by rewrite ?app_nil_r.
Qed.

(** * The area *)

Lemma foldl_shoelace (g h : nat → Z) a l :
  foldl (λ area i, area + g i - h i) a l = a + foldr Z.add 0 ((λ i, g i - h i) <$> l).
Proof.
  revert a. induction l as [|i l IH]; intros a; cbn; [lia|]. rewrite IH. lia.
Qed.

Lemma pointAt_cons p l i : pointAt (p :: l) (S i) = pointAt l i.
Proof. done. Qed.

Lemma cross_cyclic p rest :
  (λ i, cross (pointAt (p :: rest) i)
              (pointAt (p :: rest) ((i + 1) mod length (p :: rest))%nat))
    <$> seq 0 (length (p :: rest))
  = zip_with cross (p :: rest) (rest ++ [p]).
Proof.
  apply list_eq. intros i. rewrite list_lookup_fmap, lookup_zip_with.
  destruct (decide (i < length (p :: rest))%nat) as [Hi|Hi].
  - rewrite lookup_seq_lt by done. cbn [fmap option_fmap option_map Nat.add].
    assert (is_Some ((p :: rest) !! i)) as [a Ha] by by apply lookup_lt_is_Some.
    unfold pointAt at 1. rewrite Ha. cbn [default mbind option_bind].
    cbn [length] in *.
    destruct (decide (i = length rest)) as [->|Hne].
    + replace ((length rest + 1) mod S (length rest))%nat with 0%nat.
      2:{ replace (length rest + 1)%nat with (S (length rest)) by lia.
          by rewrite Nat.Div0.mod_same. }
      rewrite lookup_app_r by lia. rewrite Nat.sub_diag. done.
    + rewrite Nat.mod_small by lia. rewrite lookup_app_l by lia.
      replace (i + 1)%nat with (S i) by lia. rewrite pointAt_cons. unfold pointAt.
      assert (is_Some (rest !! i)) as [c Hc] by (apply lookup_lt_is_Some; lia).
      rewrite Hc. done.
  - rewrite lookup_seq_ge by lia. rewrite (lookup_ge_None_2 (p :: rest)) by lia. done.
Qed.

Lemma Qabs_half z : (Qabs ((1 # 2) * inject_Z z) == inject_Z (Z.abs z) / 2)%Q.
Proof.
  rewrite Qabs_Qmult. change (Qabs (1 # 2)) with (1 # 2)%Q.
  change (Qabs (inject_Z z)) with (inject_Z (Z.abs z)). field.
Qed.

(** [calculateArea] is the absolute value of the shoelace area, also on
    fewer than three points, where both are zero. *)
Lemma calculateArea_shoelace points :
  (calculateArea points == Qabs (shoelace points))%Q.
Proof.
  unfold calculateArea. case_bool_decide as Hlen.
  - destruct points as [|p [|q [|r points]]]; [done| | |cbn in Hlen; lia].
    + unfold shoelace, cross. cbn. replace (_ - _ + 0) with 0 by lia. done.
    + unfold shoelace, cross. cbn.
      replace (_ - _ + (_ - _ + 0)) with 0 by lia. done.
  - destruct points as [|p rest]; [cbn in Hlen; lia|].
    rewrite (foldl_shoelace
               (λ i, Point.x (pointAt (p :: rest) i) *
                     Point.y (pointAt (p :: rest) ((i + 1) mod length (p :: rest))%nat))
               (λ i, Point.x (pointAt (p :: rest) ((i + 1) mod length (p :: rest))%nat) *
                     Point.y (pointAt (p :: rest) i))).
    unfold shoelace. rewrite <- cross_cyclic. unfold cross.
    rewrite Z.add_0_l. by rewrite Qabs_half.
Qed.

Lemma classifyOne_area w h points c :
  classifyOne w h points = Some c →
  Contour.points c = points ∧ Contour.area c = calculateArea points.
Proof.
  unfold classifyOne. destruct (classify _ _ _ _); [|done]. by intros [= <-].
Qed.

Lemma elem_of_ofType w h t contours c :
  c ∈ ofType w h t contours →
  ∃ points, points ∈ contours ∧ classifyOne w h points = Some c ∧ Contour.type c = t.
Proof.
  unfold ofType. intros (points & Hin & Hc)%list_elem_of_omap.
  exists points. split; [done|]. unfold classifyOne. rewrite classify_decisionTable.
  destruct (decisionTable _ _ _) as [t'|]; [|done].
  destruct (decide (t' = t)); [|done]. by simplify_eq.
Qed.

Lemma classifyContours_area contours w h :
  Forall (λ c, (Contour.area c == Qabs (shoelace (Contour.points c)))%Q)
         (allContours (classifyContours contours w h)).
Proof.
  rewrite classifyContours_ofType. unfold allContours.
  cbn [Classified.walls Classified.doors Classified.windows Classified.rooms].
  rewrite !Forall_app. split_and!; apply Forall_forall;
    intros c (points & _ & [-> ->]%classifyOne_area & _)%elem_of_ofType;
    apply calculateArea_shoelace.
Qed.

Lemma toUnsignedLong_floor v :
  (0 <= v)%Q → (v < inject_Z (2 ^ 32))%Q → toUnsignedLong v = Qfloor v.
Proof.
  intros H0 H1. unfold toUnsignedLong. destruct v as [n d]. cbn [Qnum Qden Qfloor].
  assert (0 ≤ n) by (unfold Qle in H0; cbn in H0; lia).
  rewrite Z.quot_div_nonneg by lia.
  apply Z.mod_small. split; [apply Z.div_pos; lia|].
  apply Z.div_lt_upper_bound; [lia|]. unfold Qlt in H1. cbn in H1. lia.
Qed.

Lemma inject_Z_pos z : 1 ≤ z → (0 < inject_Z z)%Q.
Proof. intros H. unfold Qlt. cbn. lia. Qed.

Lemma scaleFactor_range w h : 1 ≤ w → 1 ≤ h → (0 < scaleFactor w h ∧ scaleFactor w h <= 1)%Q.
Proof.
  intros Hw Hh. unfold scaleFactor. split; [|apply Q.le_min_r].
  assert (∀ z, 1 ≤ z → (0 < 800 / inject_Z z)%Q) as Hpos.
  { intros z Hz. apply Qlt_shift_div_l; [by apply inject_Z_pos|done]. }
  apply Q.min_glb_lt; [apply Q.min_glb_lt; by apply Hpos|done].
Qed.

Lemma scaled_le_800 a b : 1 ≤ a → 1 ≤ b →
  (inject_Z a * Qmin (Qmin (800 / inject_Z a) (800 / inject_Z b)) 1 <= 800)%Q.
Proof.
  intros Ha Hb. pose proof (inject_Z_pos a Ha) as Hpos.
  assert (Qmin (Qmin (800 / inject_Z a) (800 / inject_Z b)) 1 <= 800 / inject_Z a)%Q as Hle.
  { eapply Qle_trans; [apply Q.le_min_l|apply Q.le_min_l]. }
  apply (Qmult_le_l _ _ _ Hpos) in Hle. eapply Qle_trans; [exact Hle|].
  apply Qle_lteq. right. field. intros E. rewrite E in Hpos. by apply Qlt_irrefl in Hpos.
Qed.

Lemma scaled_nonneg a s : 1 ≤ a → (0 < s)%Q → (0 <= inject_Z a * s)%Q.
Proof.
  intros Ha Hs. apply Qmult_le_0_compat; [|by apply Qlt_le_weak].
  by apply Qlt_le_weak, inject_Z_pos.
Qed.

Lemma Qmin_swap a b c : (Qmin (Qmin a b) c == Qmin (Qmin b a) c)%Q.
Proof. by rewrite (Q.min_comm a b). Qed.

Lemma workingWidth_floor img :
  1 ≤ HTMLImageElement.width img → 1 ≤ HTMLImageElement.height img →
  workingWidth img =
    Qfloor (inject_Z (HTMLImageElement.width img) *
            scaleFactor (HTMLImageElement.width img) (HTMLImageElement.height img)) ∧
  0 ≤ workingWidth img ≤ 800.
Proof.
  intros Hw Hh. unfold workingWidth.
  pose proof (scaleFactor_range _ _ Hw Hh) as [Hs _].
  pose proof (scaled_nonneg _ _ Hw Hs) as H0.
  pose proof (scaled_le_800 _ _ Hw Hh) as H8. fold (scaleFactor (HTMLImageElement.width img)
    (HTMLImageElement.height img)) in H8.
  rewrite toUnsignedLong_floor; [|done|].
  - split; [done|]. split.
    + change 0 with (Qfloor 0). by apply Qfloor_resp_le.
    + change 800 with (Qfloor 800). by apply Qfloor_resp_le.
  - eapply Qle_lt_trans; [exact H8|]. done.
Qed.

Lemma workingHeight_floor img :
  1 ≤ HTMLImageElement.width img → 1 ≤ HTMLImageElement.height img →
  workingHeight img =
    Qfloor (inject_Z (HTMLImageElement.height img) *
            scaleFactor (HTMLImageElement.width img) (HTMLImageElement.height img)) ∧
  0 ≤ workingHeight img ≤ 800.
Proof.
  intros Hw Hh. unfold workingHeight.
  pose proof (scaleFactor_range _ _ Hw Hh) as [Hs _].
  pose proof (scaled_nonneg _ _ Hh Hs) as H0.
  assert (inject_Z (HTMLImageElement.height img) *
          scaleFactor (HTMLImageElement.width img) (HTMLImageElement.height img) <= 800)%Q as H8.
  { unfold scaleFactor. rewrite Qmin_swap. by apply scaled_le_800. }
  rewrite toUnsignedLong_floor; [|done|].
  - split; [done|]. split.
    + change 0 with (Qfloor 0). by apply Qfloor_resp_le.
    + change 800 with (Qfloor 800). by apply Qfloor_resp_le.
  - eapply Qle_lt_trans; [exact H8|]. done.
Qed.

(** The outcome of [analyzeFloorPlan]: an exception when a side of the
    working image is zero, else a result with the scale and the sides. *)
Lemma analyzeFloorPlan_outcome drawImage this img :
  (analyzeFloorPlan drawImage this img).2 =
  if bool_decide (workingWidth img = 0 ∨ workingHeight img = 0)
  then inl IndexSizeError
  else
    let canvas :=
      Canvas.mk (workingWidth img) (workingHeight img)
        (drawImage img (workingWidth img) (workingHeight img)
           (Canvas.mk (workingWidth img) (workingHeight img)
              (replicate (Z.to_nat (4 * workingWidth img * workingHeight img)) 0))) in
    let imageData :=
      ImageData.mk (workingWidth img) (workingHeight img)
        (resize (Z.to_nat (4 * workingWidth img * workingHeight img)) 0 (Canvas.bitmap canvas)) in
    let classified :=
      classifyContours (findContours (detectEdges imageData))
                       (workingWidth img) (workingHeight img) in
    inr (ProcessingResult.mk
           (Classified.walls classified) (Classified.doors classified)
           (Classified.windows classified) (Classified.rooms classified)
           (scaleFactor (HTMLImageElement.width img) (HTMLImageElement.height img))
           (workingWidth img) (workingHeight img)).
Proof.
  unfold analyzeFloorPlan, getImageData, setHeight, setWidth.
  cbn [Canvas.width Canvas.height Canvas.bitmap].
  fold (scaleFactor (HTMLImageElement.width img) (HTMLImageElement.height img)).
  fold (workingWidth img). fold (workingHeight img).
  by case_bool_decide.
Qed.

Lemma edgeSetCheck_sound e E : edgeSetCheck e E = true → edgeSetIs e E.
Proof.
  unfold edgeSetCheck. rewrite andb_true_iff, !forallb_forall.
  intros [H1 H2] [x y]. split.
  - intros Hp. specialize (H1 (Point.mk x y)). rewrite andb_true_iff in H1.
    apply H1. apply list_elem_of_In. by apply elem_of_elements.
  - intros [Hb He]. specialize (H2 (x, y)). cbn [fst snd] in H2.
    rewrite He in H2. cbn in H2. apply bool_decide_eq_true in H2; [done|].
    apply list_elem_of_In. by apply elem_of_raster.
Qed.

Lemma elem_of_segment y a n p :
  p ∈ segment y a n ↔ Point.y p = y ∧ a ≤ Point.x p < a + n.
Proof.
  unfold segment. rewrite elem_of_list_to_set, list_elem_of_fmap. split.
  - intros (x & -> & Hx%elem_of_seqZ). done.
  - intros [<- Hx]. exists (Point.x p). split; [by destruct p|by apply elem_of_seqZ].
Qed.

Lemma segment_connected y a n : connectedBlob (segment y a n).
Proof.
  assert (Hright : ∀ (k : nat) x, a ≤ x → x + Z.of_nat k < a + n →
            rtc (λ p q, adj8 p q ∧ q ∈ segment y a n) (Point.mk x y) (Point.mk (x + Z.of_nat k) y)).
  { induction k as [|k IH]; intros x Hx Hk.
    - rewrite Z.add_0_r. apply rtc_refl.
    - eapply rtc_r; [apply IH; lia|]. split; [unfold adj8; cbn; lia|].
      apply elem_of_segment. cbn. lia. }
  assert (Hleft : ∀ (k : nat) x, a ≤ x - Z.of_nat k → x < a + n →
            rtc (λ p q, adj8 p q ∧ q ∈ segment y a n) (Point.mk x y) (Point.mk (x - Z.of_nat k) y)).
  { induction k as [|k IH]; intros x Hx Hk.
    - rewrite Z.sub_0_r. apply rtc_refl.
    - eapply rtc_r; [apply IH; lia|]. split; [unfold adj8; cbn; lia|].
      apply elem_of_segment. cbn. lia. }
  intros [xp yp] [xq yq] [Hyp Hxp]%elem_of_segment [Hyq Hxq]%elem_of_segment.
  cbn in *. subst yp yq. destruct (decide (xp ≤ xq)).
  - replace xq with (xp + Z.of_nat (Z.to_nat (xq - xp))) by lia. apply Hright; lia.
  - replace xq with (xp - Z.of_nat (Z.to_nat (xp - xq))) by lia. apply Hleft; lia.
Qed.

Lemma segments_separated y1 a1 n1 y2 a2 n2 :
  1 < Z.abs (y1 - y2) → separated (segment y1 a1 n1) (segment y2 a2 n2).
Proof.
  intros Hy p q [Hp _]%elem_of_segment [Hq _]%elem_of_segment [_ Hadj]. lia.
Qed.

Lemma size_segment y a n : size (segment y a n) = Z.to_nat n.
Proof.
  unfold segment. rewrite size_list_to_set.
  - by rewrite length_fmap, length_seqZ.
  - apply NoDup_fmap_2; [|apply NoDup_seqZ]. by intros x1 x2 [=].
Qed.

(** C9, witness: a row of 50 edge pixels and a row of 5. *)
Lemma findContours_two_blobs_witness :
  ∃ c, findContours twoBlobMask = [c] ∧ NoDup c ∧ list_to_set c = segment 1 1 50.
Proof.
  apply (findContours_two_blobs twoBlobMask (segment 1 1 50) (segment 3 1 5)).
  - apply edgeSetCheck_sound. by vm_compute.
  - apply segment_connected.
  - apply segment_connected.
  - apply segments_separated. lia.
  - by rewrite size_segment.
  - by rewrite size_segment.
Defined.

(** * Masks given by a predicate *)




(** * The regions of the raster scan *)

(** Every traced region is duplicate-free, the regions are pairwise
    disjoint, and together they hold every edge pixel of the image. *)
Lemma tracedRegions_partition e :
  Forall (NoDup (A:=Point.t)) (tracedRegions e) ∧
  (∀ i j r s p, i ≠ j → tracedRegions e !! i = Some r → tracedRegions e !! j = Some s →
                p ∈ r → p ∉ s) ∧
  (∀ p, edgePixel e p ↔ ∃ r, r ∈ tracedRegions e ∧ p ∈ r).
Proof.
  rewrite tracedRegions_raster.
  set (I := λ (pre : list (Z * Z)) (acc : list (list Point.t) * gset (Z * Z)),
    (∀ x y, (x, y) ∈ pre → isEdge e (Point.mk x y) = true → (x, y) ∈ acc.2) ∧
    (∀ q, key q ∈ acc.2 → isEdge e q = true → ∃ r, r ∈ acc.1 ∧ q ∈ r) ∧
    (∀ r q, r ∈ acc.1 → q ∈ r → key q ∈ acc.2 ∧ edgePixel e q) ∧
    Forall (NoDup (A:=Point.t)) acc.1 ∧
    (∀ i j r s p, i ≠ j → acc.1 !! i = Some r → acc.1 !! j = Some s → p ∈ r → p ∉ s)).
  assert (Hfin : I (raster e) (foldl (λ acc p, scanPixelAll e acc p.1 p.2) ([], ∅) (raster e))).
  { apply (foldl_invariant I).
    { split_and!; cbn; [by intros ? ? ?%elem_of_nil|set_solver|by intros ? ? ?%elem_of_nil
                        |done|done]. }
    intros pre [x y] [rs V] (I1 & I2 & I3 & I4 & I5) Hin%elem_of_raster. cbn [fst snd] in *.
    unfold scanPixelAll. case_bool_decide as Hv.
    { split_and!; [|done..]. intros x' y' [?| Heq%list_elem_of_singleton]%elem_of_app; [eauto|].
      intros _. by simplify_eq. }
    destruct (isEdge e (Point.mk x y)) eqn:He.
    2:{ split_and!; [|done..]. intros x' y' [?| Heq%list_elem_of_singleton]%elem_of_app; [eauto|].
        simplify_eq. congruence. }
    unfold traceContour.
    pose proof (traceState_basic e x y V) as [Hnd _ Hc Hm Ha].
    pose proof (traceState_conn e x y V Hin) as [_ Hco _ _].
    pose proof (traceState_head e x y V Hv He) as Hh.
    generalize dependent (traceState e x y V). intros st Hnd Hc Hm Ha Hco Hh. cbn [fst snd].
    split_and!.
    - intros x' y' [?| Heq%list_elem_of_singleton]%elem_of_app ?; [apply Hm; eauto|].
      simplify_eq. apply (Hc (Point.mk x y)). destruct (Trace.contour st); [done|].
      cbn in Hh. simplify_eq. by left.
    - intros q Hq Hqe. destruct (decide (key q ∈ V)) as [HqV|HqV].
      + destruct (I2 q HqV Hqe) as (r & Hr & Hqr). exists r. split; [|done].
        apply elem_of_app. by left.
      + exists (Trace.contour st). split; [apply elem_of_app; right; by left|by apply Ha].
    - intros r q [Hr| ->%list_elem_of_singleton]%elem_of_app Hq.
      + destruct (I3 r q Hr Hq). split; [by apply Hm|done].
      + destruct (Hc q Hq) as (? & ? & ?). destruct (Hco q Hq). split; [done|]. by split.
    - apply Forall_app. split; [done|]. by apply Forall_singleton.
    - assert (Hnew : ∀ r q, r ∈ rs → q ∈ r → q ∉ Trace.contour st).
      { intros r q Hr Hq Hq'. destruct (I3 r q Hr Hq) as [HqV _].
        by destruct (Hc q Hq') as (_ & ? & _). }
      intros i j r s p Hij Hi Hj Hp.
      apply lookup_app_Some in Hi as [Hi|[Hil Hi]]; apply lookup_app_Some in Hj as [Hj|[Hjl Hj]].
      + by apply (I5 i j r s p).
      + apply list_lookup_singleton_Some in Hj as [_ <-].
        apply (Hnew r p); [|done]. by eapply list_elem_of_lookup_2.
      + apply list_lookup_singleton_Some in Hi as [_ <-]. intros Hs.
        apply (Hnew s p); [|done..]. by eapply list_elem_of_lookup_2.
      + apply list_lookup_singleton_Some in Hi as [? _].
        apply list_lookup_singleton_Some in Hj as [? _]. lia. }
  destruct Hfin as (I1 & I2 & I3 & I4 & I5). split_and!; [done|done|].
  intros [x y]. split.
  - intros [Hb He]. apply I2; [|done]. apply I1; [by apply elem_of_raster|done].
  - intros (r & Hr & Hp). by apply (I3 r).
Qed.







(** C5.  The contours emitted are the traced regions of more than 10
    points, so each has more than 10 and at most 1000 points and a region
    of 10 points or fewer is discarded; a trace ends with an empty stack or,
    stopped by the cap, with exactly 1000 points. *)
Theorem tracer_contour_sizes e :
  findContours e = filter (λ c, 10 < length c)%nat (tracedRegions e) ∧
  Forall (λ c, 10 < Z.of_nat (length c) ≤ 1000) (findContours e) ∧
  (∀ x y V, Z.of_nat (length (Trace.contour (traceState e x y V))) ≤ 1000 ∧
            (Trace.stack (traceState e x y V) = [] ∨
             Z.of_nat (length (Trace.contour (traceState e x y V))) = 1000)).
Proof.
  split_and!.
  - apply findContours_filter.
  - rewrite findContours_filter. apply Forall_forall.
    intros c [Hc Hin]%list_elem_of_filter.
    pose proof (tracedRegions_length e) as H. rewrite Forall_forall in H.
    specialize (H c Hin). cbn in H. lia.
  - intros x y V. pose proof (traceState_basic e x y V) as [_ Hlen _ _ _].
    split; [done|]. pose proof (traceState_exit e x y V) as Hex.
    apply traceGuard_false in Hex as [?|?]; [by left|right; lia].
Qed.

(** C10.  Every point of every contour traced on the mask of the edge
    detector lies strictly inside the 1-pixel border of the image, and no
    contour holds the same point twice. *)
Theorem contour_points_interior_distinct img :
  Forall (λ c, NoDup c ∧
               Forall (λ p, interior (ImageData.width img) (ImageData.height img)
                                     (Point.x p) (Point.y p)) c)
         (findContours (detectEdges img)).
Proof.
  eapply Forall_impl; [apply findContours_sound|].
  intros c [Hnd Hc]. split; [done|]. eapply Forall_impl; [exact Hc|].
  intros [x y] [Hb He]. rewrite inBounds_detectEdges in Hb.
  rewrite isEdge_detectEdges in He by done.
  apply andb_true_iff in He as [Hi _]. by apply bool_decide_eq_true in Hi.
Qed.



Lemma resultContours_outcome drawImage this img r :
  (analyzeFloorPlan drawImage this img).2 = inr r →
  ∃ contours,
    resultContours r =
    allContours (classifyContours contours (workingWidth img) (workingHeight img)) ∧
    ProcessingResult.scale r =
      scaleFactor (HTMLImageElement.width img) (HTMLImageElement.height img) ∧
    ProcessingResult.imageWidth r = workingWidth img ∧
    ProcessingResult.imageHeight r = workingHeight img ∧
    workingWidth img ≠ 0 ∧ workingHeight img ≠ 0.
Proof.
  rewrite analyzeFloorPlan_outcome. case_bool_decide as Hz; [done|].
  cbv zeta. intros [= <-]. eexists. split_and!; [reflexivity|done|done|done|tauto|tauto].
Qed.

(** C6.  The area of every contour that the classifier keeps, hence of
    every contour of a [ProcessingResult], is the absolute value of the
    shoelace area of its points. *)
Theorem result_area_shoelace :
  (∀ contours w h,
     Forall (λ c, (Contour.area c == Qabs (shoelace (Contour.points c)))%Q)
            (allContours (classifyContours contours w h))) ∧
  (∀ decode drawImage this file,
     match (processImage decode drawImage this file).2 with
     | inr r => Forall (λ c, (Contour.area c == Qabs (shoelace (Contour.points c)))%Q)
                       (resultContours r)
     | inl _ => True
     end).
Proof.
  split; [apply classifyContours_area|].
  intros decode drawImage this file. unfold processImage.
  destruct (decode file) as [img|]; [|done].
  destruct (analyzeFloorPlan drawImage this img).2 as [|r] eqn:Hr; [done|].
  apply resultContours_outcome in Hr as (contours & -> & _). apply classifyContours_area.
Qed.






(** C8.  The result of [processImage] depends on the file alone, not on the
    state the processor's canvas was left in: any two calls on the same
    bytes, and in particular two calls in a row, give the same outcome. *)
Theorem processImage_repeatable decode drawImage this1 this2 file :
  (processImage decode drawImage this1 file).2 = (processImage decode drawImage this2 file).2 ∧
  (processImage decode drawImage (processImage decode drawImage this1 file).1 file).2
  = (processImage decode drawImage this1 file).2.
Proof.
  assert (∀ a b, (processImage decode drawImage a file).2 = (processImage decode drawImage b file).2) as H.
  { intros a b. unfold processImage. destruct (decode file); [|done].
    by rewrite !analyzeFloorPlan_outcome. }
  split; apply H.
Qed.

(** * More on the region tracer *)

Lemma scanRegions_invariant (e : ImageData.t)
    (P : list (list Point.t) * gset (Z * Z) → Prop) :
  P ([], ∅) →
  (∀ rs V x y, P (rs, V) → inBounds e (Point.mk x y) = true → (x, y) ∉ V →
     isEdge e (Point.mk x y) = true →
     P (rs ++ [Trace.contour (traceState e x y V)], Trace.visited (traceState e x y V))) →
  P (foldl (λ acc p, scanPixelAll e acc p.1 p.2) ([], ∅) (raster e)).
Proof.
  intros H0 Hs. apply (foldl_invariant (λ _ acc, P acc)); [done|].
  intros _ [x y] [rs V] HP Hin%elem_of_raster. unfold scanPixelAll. cbn [fst snd].
  case_bool_decide; [done|]. destruct (isEdge e _) eqn:He; [|done].
  unfold traceContour. by apply Hs.
Qed.

Lemma NoDup_join_disjoint {A} (ls : list (list A)) :
  Forall NoDup ls →
  (∀ i j r s p, i ≠ j → ls !! i = Some r → ls !! j = Some s → p ∈ r → p ∉ s) →
  NoDup (mjoin ls).
Proof.
  induction ls as [|r ls IH]; intros Hnd Hdis; [constructor|].
  apply Forall_cons_1 in Hnd as [Hr Hnd]. cbn [mjoin list_join]. apply NoDup_app. split_and!.
  - done.
  - intros p Hp (s & Hps & Hs)%list_elem_of_join.
    apply list_elem_of_lookup in Hs as [j Hj].
    by apply (Hdis 0%nat (S j) r s p).
  - apply IH; [done|]. intros i j r' s p Hij Hi Hj. apply (Hdis (S i) (S j)); [lia|done..].
Qed.

Lemma NoDup_join_filter {A} (P : list A → Prop) `{!∀ l, Decision (P l)} (ls : list (list A)) :
  NoDup (mjoin ls) → NoDup (mjoin (filter P ls)).
Proof.
  induction ls as [|r ls IH]; [done|]. cbn [mjoin list_join]. rewrite filter_cons.
  intros (Hr & Hdis & Hrest)%NoDup_app. destruct (decide (P r)); [|by apply IH].
  cbn [mjoin list_join]. apply NoDup_app. split_and!; [done| |by apply IH].
  intros z Hz (s & Hzs & [_ Hs]%list_elem_of_filter)%list_elem_of_join.
  apply (Hdis z Hz). apply list_elem_of_join. by exists s.
Qed.

Lemma tracedRegions_NoDup e : NoDup (mjoin (tracedRegions e)).
Proof.
  destruct (tracedRegions_partition e) as (Hnd & Hdis & _). by apply NoDup_join_disjoint.
Qed.

(** X1.  No pixel occurs in two contours of [findContours], nor twice in
    one, and every point of a contour is an edge pixel of the mask. *)
Theorem findContours_disjoint e :
  NoDup (mjoin (findContours e)) ∧ Forall (edgePixel e) (mjoin (findContours e)).
Proof.
  split.
  - rewrite findContours_filter. apply NoDup_join_filter, tracedRegions_NoDup.
  - apply Forall_forall. intros p (c & Hp & Hc)%list_elem_of_join.
    pose proof (findContours_sound e) as H. rewrite Forall_forall in H.
    destruct (H c Hc) as [_ Hall]. rewrite Forall_forall in Hall. by apply Hall.
Qed.

(** X2.  The raster scan traces every edge pixel exactly once: the traced
    regions, kept or dropped, are duplicate-free and disjoint and their
    pixels are exactly the edge pixels of the mask.  A pixel is thus missing
    from the contours only with its whole region, of 10 points or fewer. *)
Theorem tracedRegions_cover e :
  NoDup (mjoin (tracedRegions e)) ∧
  (∀ p, p ∈ mjoin (tracedRegions e) ↔ edgePixel e p) ∧
  (∀ p, edgePixel e p →
        p ∈ mjoin (findContours e) ∨
        ∃ r, r ∈ tracedRegions e ∧ p ∈ r ∧ (length r ≤ 10)%nat).
Proof.
  destruct (tracedRegions_partition e) as (_ & _ & Hcov).
  split_and!; [apply tracedRegions_NoDup| |].
  - intros p. rewrite Hcov, list_elem_of_join. naive_solver.
  - intros p (r & Hr & Hp)%Hcov. destruct (decide (10 < length r)%nat) as [Hl|Hl].
    + left. apply list_elem_of_join. exists r. split; [done|].
      rewrite findContours_filter. by apply list_elem_of_filter.
    + right. exists r. split_and!; [done..|lia].
Qed.

(** X3.  The points of a contour are 8-connected: each is reached from the
    first point of the contour through 8-adjacent edge pixels. *)
Theorem findContours_connected e :
  Forall (λ c, ∃ s, head c = Some s ∧ Forall (reach e s) c) (findContours e).
Proof.
  unfold findContours.
  apply (scanAll_invariant e
           (λ acc, Forall (λ c, ∃ s, head c = Some s ∧ Forall (reach e s) c) acc.1)); [done|].
  intros cs V x y HP Hb Hv He. case_bool_decide; [|done]. cbn [fst] in *.
  apply Forall_app. split; [done|]. apply Forall_singleton.
  exists (Point.mk x y). split; [by apply traceState_head|].
  pose proof (traceState_conn e x y V Hb) as [_ Hco _ _].
  apply Forall_forall. intros q Hq. by apply Hco.
Qed.

(** The scan with the index of each region: a region of fewer than 1000
    points is closed, up to the regions traced before it. *)
Lemma tracedRegions_closure e :
  (∀ i r, tracedRegions e !! i = Some r →
     ∃ s, head r = Some s ∧ edgePixel e s ∧ ∀ q, q ∈ r → reach e s q) ∧
  (∀ i r c n, tracedRegions e !! i = Some r → Z.of_nat (length r) < 1000 →
     c ∈ r → adj8 c n → edgePixel e n →
     ∃ j s, (j ≤ i)%nat ∧ tracedRegions e !! j = Some s ∧ n ∈ s).
Proof.
  rewrite tracedRegions_raster.
  set (P := λ acc : list (list Point.t) * gset (Z * Z),
    (∀ q, key q ∈ acc.2 → isEdge e q = true → ∃ j s, acc.1 !! j = Some s ∧ q ∈ s) ∧
    (∀ i r, acc.1 !! i = Some r →
       ∃ s, head r = Some s ∧ edgePixel e s ∧ ∀ q, q ∈ r → reach e s q) ∧
    (∀ i r c n, acc.1 !! i = Some r → Z.of_nat (length r) < 1000 →
       c ∈ r → adj8 c n → edgePixel e n →
       ∃ j s, (j ≤ i)%nat ∧ acc.1 !! j = Some s ∧ n ∈ s)).
  assert (Hfin : P (foldl (λ acc p, scanPixelAll e acc p.1 p.2) ([], ∅) (raster e))).
  { apply scanRegions_invariant.
    { split_and!; cbn; [set_solver|done|done]. }
    intros rs V x y (P1 & P2 & P3) Hb Hv He.
    pose proof (traceState_basic e x y V) as [_ _ _ _ Ha].
    pose proof (traceState_conn e x y V Hb) as [_ Hco Hcl _].
    pose proof (traceState_head e x y V Hv He) as Hh.
    pose proof (traceState_exit e x y V) as Hex.
    generalize dependent (traceState e x y V). intros st Ha Hco Hcl Hh Hex. cbn [fst snd] in *.
    assert (Hnew : ∀ q, key q ∈ Trace.visited st → isEdge e q = true →
              ∃ j s, (j ≤ length rs)%nat ∧ (rs ++ [Trace.contour st]) !! j = Some s ∧ q ∈ s).
    { intros q Hq Hqe. destruct (decide (key q ∈ V)) as [HqV|HqV].
      - destruct (P1 q HqV Hqe) as (j & s & Hj & Hqs). exists j, s.
        split_and!; [apply lookup_lt_Some in Hj; lia|by apply lookup_app_l_Some|done].
      - exists (length rs), (Trace.contour st). split_and!; [done| |by apply Ha].
        rewrite lookup_app_r by done. by rewrite Nat.sub_diag. }
    split_and!.
    - intros q Hq Hqe. destruct (Hnew q Hq Hqe) as (j & s & _ & ? & ?). eauto.
    - intros i r [Hi|[_ Hi]]%lookup_app_Some; [by apply (P2 i)|].
      apply list_lookup_singleton_Some in Hi as [_ <-]. exists (Point.mk x y).
      split_and!; [done|by split|]. intros q Hq. by apply Hco.
    - intros i r c n [Hi|[Hil Hi]]%lookup_app_Some Hlen Hc Hadj Hn.
      + destruct (P3 i r c n Hi Hlen Hc Hadj Hn) as (j & s & ? & ? & ?).
        exists j, s. split_and!; [done|by apply lookup_app_l_Some|done].
      + apply list_lookup_singleton_Some in Hi as [Hi0 <-].
        assert (i = length rs) as -> by lia.
        apply traceGuard_false in Hex as [Hs|?]; [|lia]. rewrite Hs in Hcl.
        destruct Hn as [Hnb Hne]. apply Hnew; [|done].
        destruct (Hcl c n Hc Hadj Hnb) as [?|Hin]; [done|]. by apply elem_of_nil in Hin. }
  destruct Hfin as (_ & P2 & P3). done.
Qed.

(** X4.  When no traced region reaches the cap of 1000 points, every
    contour is a whole 8-connected component of the edge mask: its points
    are exactly the edge pixels reached from its first point. *)
Theorem findContours_components e :
  Forall (λ r, Z.of_nat (length r) < 1000) (tracedRegions e) →
  Forall (λ c, ∃ s, head c = Some s ∧ ∀ q, q ∈ c ↔ reach e s q) (findContours e).
Proof.
  intros Hsmall. rewrite Forall_forall in Hsmall.
  destruct (tracedRegions_partition e) as (_ & Hdis & _).
  destruct (tracedRegions_closure e) as (Hhead & Hclo).
  rewrite findContours_filter. apply Forall_forall.
  intros r [_ Hr]%list_elem_of_filter.
  apply list_elem_of_lookup in Hr as [i Hi].
  destruct (Hhead i r Hi) as (s & Hs & Hse & Hreach).
  exists s. split; [done|]. intros q. split; [apply Hreach|].
  assert (Hin : s ∈ r) by (destruct r; cbn in Hs; simplify_eq; by left).
  revert q. apply (rtc_ind_r (λ q, q ∈ r)); [done|].
  intros c n _ [Hadj Hn] Hc.
  destruct (Hclo i r c n Hi) as (j & t & Hji & Hj & Hnt); [|done..|].
  { apply Hsmall. by eapply list_elem_of_lookup_2. }
  destruct (decide (j = i)) as [->|Hne]; [by simplify_eq|]. exfalso.
  destruct (Hclo j t n c Hj) as (k & u & Hkj & Hk & Hcu); [|done|by apply adj8_sym| |].
  { apply Hsmall. by eapply list_elem_of_lookup_2. }
  { destruct (tracedRegions_partition e) as (_ & _ & Hcov). apply Hcov.
    exists r. split; [by eapply list_elem_of_lookup_2|done]. }
  apply (Hdis k i u r c); [lia|done..].
Qed.

(** X5.  The loop of [traceContour] stops within 9001 iterations, whatever
    the mask: each iteration pops a pixel, and at most 1000 of them add a
    point and push at most nine neighbours. *)
Theorem traceContour_iterations e x y V :
  ∃ n, Z.of_nat n ≤ 9001 ∧ traceGuard (Nat.iter n (traceStep e) (traceInit x y V)) = false.
Proof.
  assert (Hgen : ∀ m st, (traceMeasure st ≤ m)%nat →
            ∃ n, (n ≤ m)%nat ∧ traceGuard (Nat.iter n (traceStep e) st) = false).
  { induction m as [|m IH]; intros st Hm.
    - exists 0%nat. split; [done|]. cbn. destruct (traceGuard st) eqn:Hg; [|done].
      apply (traceStep_measure e) in Hg. lia.
    - destruct (traceGuard st) eqn:Hg; [|exists 0%nat; split; [lia|done]].
      apply (traceStep_measure e) in Hg.
      destruct (IH (traceStep e st)) as (n & Hn & Hex); [lia|].
      exists (S n). split; [lia|]. by rewrite Nat.iter_succ_r. }
  destruct (Hgen (traceMeasure (traceInit x y V)) (traceInit x y V)) as (n & Hn & Hex);
    [done|].
  exists n. split; [|done]. unfold traceMeasure, traceInit in Hn.
  cbn [Trace.contour Trace.stack length] in Hn. lia.
Qed.

Lemma tracedRegions_length_edges e (E : gset Point.t) r :
  edgeSetIs e E → r ∈ tracedRegions e → (length r ≤ size E)%nat.
Proof.
  intros HE Hr. destruct (tracedRegions_partition e) as (Hnd & _ & Hcov).
  rewrite Forall_forall in Hnd. rewrite <- (size_list_to_set (C:=gset Point.t) r) by auto.
  apply subseteq_size. intros p Hp%elem_of_list_to_set. apply HE, Hcov. eauto.
Qed.

(** X4, witness: the mask of a row of 50 edge pixels and a row of 5. *)
Lemma findContours_components_witness :
  Forall (λ c, ∃ s, head c = Some s ∧ ∀ q, q ∈ c ↔ reach twoBlobMask s q)
         (findContours twoBlobMask).
Proof.
  apply (findContours_components twoBlobMask). apply Forall_forall. intros r Hr.
  pose proof (tracedRegions_length_edges twoBlobMask (segment 1 1 50 ∪ segment 3 1 5) r) as H.
  rewrite size_union, !size_segment in H.
  - assert (edgeSetIs twoBlobMask (segment 1 1 50 ∪ segment 3 1 5)) as HE
      by (apply edgeSetCheck_sound; by vm_compute).
    specialize (H HE Hr). lia.
  - intros p [Hp _]%elem_of_segment [Hq _]%elem_of_segment. lia.
Defined.

(** * More on the edge detector *)

Lemma getGray_rgbSum img x y :
  getGray (ImageData.data img) x y (ImageData.width img) = (inject_Z (rgbSum img x y) / 3)%Q.
Proof. done. Qed.


Lemma interior_neighbour_inBounds img x y dx dy :
  interior (ImageData.width img) (ImageData.height img) x y →
  -1 ≤ dx ≤ 1 → -1 ≤ dy ≤ 1 → inBounds img (Point.mk (x + dx) (y + dy)) = true.
Proof.
  intros [Hx Hy] Hdx Hdy. unfold inBounds. cbn [Point.x Point.y].
  rewrite !bool_decide_eq_true_2 by lia. done.
Qed.




Lemma findContours_no_edges e :
  (∀ p, inBounds e p = true → isEdge e p = false) → findContours e = [].
Proof.
  intros Hno. unfold findContours.
  apply (scanAll_invariant e (λ acc, acc.1 = [])); [done|].
  intros cs V x y _ Hb _ He. rewrite Hno in He by done. done.
Qed.

(** X7.  An image of one colour has no edge: its mask is all background,
    the tracer finds no contour and the classifier returns four empty
    arrays. *)
Theorem uniform_image_empty img s :
  (∀ x y, inBounds img (Point.mk x y) = true → rgbSum img x y = s) →
  (∀ p, inBounds img p = true → isEdge (detectEdges img) p = false) ∧
  findContours (detectEdges img) = [] ∧
  classifyContours (findContours (detectEdges img))
                   (ImageData.width img) (ImageData.height img)
  = Classified.mk [] [] [] [].
Proof.
  intros Hs.
  assert (Hno : ∀ p, inBounds img p = true → isEdge (detectEdges img) p = false).
  { intros [x y] Hb. rewrite isEdge_detectEdges by done.
    case_bool_decide as Hi; [|done]. cbn [andb].
    assert (Hg : ∀ dx dy, -1 ≤ dx ≤ 1 → -1 ≤ dy ≤ 1 →
              getGray (ImageData.data img) (x + dx) (y + dy) (ImageData.width img)
              = (inject_Z s / 3)%Q).
    { intros dx dy Hdx Hdy. rewrite getGray_rgbSum.
      by rewrite Hs by by apply interior_neighbour_inBounds. }
    pose proof (Hg (-1) (-1)) as Hmm. pose proof (Hg 0 (-1)) as H0m.
    pose proof (Hg 1 (-1)) as Hpm. pose proof (Hg (-1) 0) as Hm0. pose proof (Hg 1 0) as Hp0.
    pose proof (Hg (-1) 1) as Hmp. pose proof (Hg 0 1) as H0p. pose proof (Hg 1 1) as Hpp.
    rewrite ?Z.add_0_r in *. change (x + -1) with (x - 1) in *.
    change (y + -1) with (y - 1) in *.
    assert ((sobelGx (ImageData.data img) x y (ImageData.width img) == 0)%Q) as ->.
    { unfold sobelGx. rewrite Hmm, Hpm, Hm0, Hp0, Hmp, Hpp by lia. ring. }
    assert ((sobelGy (ImageData.data img) x y (ImageData.width img) == 0)%Q) as ->.
    { unfold sobelGy. rewrite Hmm, H0m, Hpm, Hmp, H0p, Hpp by lia. ring. }
    done. }
  split; [done|]. rewrite findContours_no_edges; [done|].
  intros p Hp. rewrite inBounds_detectEdges in Hp. by apply Hno.
Qed.

Lemma uniform_image_empty_witness :
  (∀ p, inBounds greyImage p = true → isEdge (detectEdges greyImage) p = false) ∧
  findContours (detectEdges greyImage) = [] ∧
  classifyContours (findContours (detectEdges greyImage))
                   (ImageData.width greyImage) (ImageData.height greyImage)
  = Classified.mk [] [] [] [].
Proof.
  apply (uniform_image_empty greyImage 384).
  intros x y Hb. unfold inBounds in Hb.
  cbn [Point.x Point.y ImageData.width ImageData.height greyImage] in Hb.
  rewrite !andb_true_iff, !bool_decide_eq_true in Hb.
  assert (x = 0 ∨ x = 1 ∨ x = 2) as Hx by lia. assert (y = 0 ∨ y = 1 ∨ y = 2) as Hy by lia.
  destruct Hx as [-> | [-> | ->]], Hy as [-> | [-> | ->]]; by vm_compute.
Defined.

(** X8.  The mask is a well-formed greyscale image: it has four bytes per
    pixel; the R, G and B bytes of a pixel are equal, 0 or 255; alpha is 255
    on the pixels inside the 1-pixel border and 0 on the border. *)
Theorem detectEdges_bytes img x y :
  inBounds img (Point.mk x y) = true →
  let d := ImageData.data (detectEdges img) in
  let base := (y * ImageData.width img + x) * 4 in
  Z.of_nat (length d) = 4 * ImageData.width img * ImageData.height img ∧
  (get d base = 0 ∨ get d base = 255) ∧
  get d (base + 1) = get d base ∧
  get d (base + 2) = get d base ∧
  get d (base + 3) =
    if decide (interior (ImageData.width img) (ImageData.height img) x y) then 255 else 0.
Proof.
  intros Hb d base. subst d base.
  pose proof (get_detectEdges img x y 0 Hb) as H0. rewrite Z.add_0_r in H0.
  rewrite H0 by lia.
  rewrite (get_detectEdges img x y 1 Hb), (get_detectEdges img x y 2 Hb),
    (get_detectEdges img x y 3 Hb) by lia. clear H0.
  assert (Hv : edgeValue (ImageData.data img) x y (ImageData.width img) = 0 ∨
               edgeValue (ImageData.data img) x y (ImageData.width img) = 255).
  { unfold edgeValue. destruct (magnitudeExceeds _ _ _); [by right|by left]. }
  revert Hv. generalize (edgeValue (ImageData.data img) x y (ImageData.width img)).
  intros v Hv. split.
  - rewrite detectEdges_interiorPixels, length_detectLoop, length_replicate.
    unfold inBounds in Hb. cbn [Point.x Point.y] in Hb.
    rewrite !andb_true_iff, !bool_decide_eq_true in Hb.
    apply Z2Nat.id. apply Z.mul_nonneg_nonneg; lia.
  - destruct (decide (interior _ _ _ _)); [|by auto].
    destruct (decide (0 = 3)); [lia|]. destruct (decide (1 = 3)); [lia|].
    destruct (decide (2 = 3)); [lia|]. destruct (decide (3 = 3)); [|lia]. by auto.
Qed.

Lemma detectEdges_bytes_witness :
  let d := ImageData.data (detectEdges stepImage) in
  let base := (1 * ImageData.width stepImage + 1) * 4 in
  Z.of_nat (length d) = 4 * ImageData.width stepImage * ImageData.height stepImage ∧
  (get d base = 0 ∨ get d base = 255) ∧
  get d (base + 1) = get d base ∧
  get d (base + 2) = get d base ∧
  get d (base + 3) =
    if decide (interior (ImageData.width stepImage) (ImageData.height stepImage) 1 1)
    then 255 else 0.
Proof. apply (detectEdges_bytes stepImage 1 1). by vm_compute. Defined.

(** * More on the classifier *)

Lemma foldl_min_le a xs :
  foldl Z.min a xs ≤ a ∧ ∀ x, x ∈ xs → foldl Z.min a xs ≤ x.
Proof.
  revert a. induction xs as [|b xs IH]; intros a; cbn [foldl].
  - split; [done|]. by intros x ?%elem_of_nil.
  - destruct (IH (a `min` b)) as [H1 H2]. split; [lia|].
    intros x [->|Hx]%elem_of_cons; [lia|by apply H2].
Qed.

Lemma foldl_max_ge a xs :
  a ≤ foldl Z.max a xs ∧ ∀ x, x ∈ xs → x ≤ foldl Z.max a xs.
Proof.
  revert a. induction xs as [|b xs IH]; intros a; cbn [foldl].
  - split; [done|]. by intros x ?%elem_of_nil.
  - destruct (IH (a `max` b)) as [H1 H2]. split; [lia|].
    intros x [->|Hx]%elem_of_cons; [lia|by apply H2].
Qed.

Lemma minOf_le xs x : x ∈ xs → minOf xs ≤ x.
Proof.
  destruct xs as [|a xs]; [by intros ?%elem_of_nil|]. cbn [minOf].
  destruct (foldl_min_le a xs) as [H1 H2]. intros [->|Hx]%elem_of_cons; auto.
Qed.

Lemma maxOf_ge xs x : x ∈ xs → x ≤ maxOf xs.
Proof.
  destruct xs as [|a xs]; [by intros ?%elem_of_nil|]. cbn [maxOf].
  destruct (foldl_max_ge a xs) as [H1 H2]. intros [->|Hx]%elem_of_cons; auto.
Qed.

Lemma minOf_elem xs : xs ≠ [] → minOf xs ∈ xs.
Proof.
  destruct xs as [|a xs]; [done|]. intros _. cbn [minOf].
  revert a. induction xs as [|b xs IH]; intros a; [by left|]. cbn [foldl].
  pose proof (IH (a `min` b)) as H. apply elem_of_cons in H as [E|Hin].
  - rewrite E. destruct (Z.min_spec a b) as [[_ ->]|[_ ->]]; [by left|right; by left].
  - right. by right.
Qed.

Lemma maxOf_elem xs : xs ≠ [] → maxOf xs ∈ xs.
Proof.
  destruct xs as [|a xs]; [done|]. intros _. cbn [maxOf].
  revert a. induction xs as [|b xs IH]; intros a; [by left|]. cbn [foldl].
  pose proof (IH (a `max` b)) as H. apply elem_of_cons in H as [E|Hin].
  - rewrite E. destruct (Z.max_spec a b) as [[_ ->]|[_ ->]]; [right; by left|by left].
  - right. by right.
Qed.

(** X9.  The bounds of [getBounds] enclose every point, their width and
    height are the differences of the extremes, and on a non-empty list
    each extreme is the coordinate of some point. *)
Theorem getBounds_encloses points :
  let b := getBounds points in
  Forall (λ p, Bounds.minX b ≤ Point.x p ≤ Bounds.maxX b ∧
               Bounds.minY b ≤ Point.y p ≤ Bounds.maxY b) points ∧
  Bounds.width b = Bounds.maxX b - Bounds.minX b ∧
  Bounds.height b = Bounds.maxY b - Bounds.minY b ∧
  (points = [] ∨
   Bounds.minX b ∈ Point.x <$> points ∧ Bounds.maxX b ∈ Point.x <$> points ∧
   Bounds.minY b ∈ Point.y <$> points ∧ Bounds.maxY b ∈ Point.y <$> points).
Proof.
  cbv zeta. unfold getBounds.
  cbn [Bounds.minX Bounds.maxX Bounds.minY Bounds.maxY Bounds.width Bounds.height].
  split_and!; [|done|done|].
  - apply Forall_forall. intros p Hp.
    assert (Point.x p ∈ Point.x <$> points) by (apply list_elem_of_fmap; eauto).
    assert (Point.y p ∈ Point.y <$> points) by (apply list_elem_of_fmap; eauto).
    split_and!; auto using minOf_le, maxOf_ge.
  - destruct points as [|p points]; [by left|right].
    split_and!; (apply minOf_elem || apply maxOf_elem); done.
Qed.

Lemma classify_Some A b w h t :
  classify A b w h = Some t →
  (200 < A)%Q ∧
  (t = room → (5000 < A)%Q ∧ touchesBoundary b w h = false ∧
              ¬ (3 < aspectOf b)%Q ∧ ¬ (aspectOf b < 33 # 100)%Q) ∧
  (t = door → (1000 < A)%Q ∧ (A <= 5000)%Q ∧ (4 # 10 < aspectOf b)%Q ∧
              (aspectOf b < 25 # 10)%Q) ∧
  (t = window → (A <= 1000)%Q ∧ ((2 < aspectOf b)%Q ∨ (aspectOf b < 5 # 10)%Q)) ∧
  (t = wall → (1000 < A)%Q).
Proof.
  unfold classify.
  destruct (Qltb 5000 A) eqn:H5.
  { apply Qltb_lt in H5. assert (200 < A)%Q by (eapply Qlt_trans; [|exact H5]; done).
    assert (1000 < A)%Q by (eapply Qlt_trans; [|exact H5]; done).
    destruct (touchesBoundary b w h) eqn:Ht; cbn [orb].
    - intros [= <-]. split_and!; done.
    - destruct (Qltb 3 (aspectOf b)) eqn:H3; cbn [orb]; [intros [= <-]; split_and!; done|].
      destruct (Qltb (aspectOf b) (33 # 100)) eqn:H33; intros [= <-]; split_and!; try done.
      intros _. split_and!; [done|done| |]; rewrite <- Qltb_lt; congruence. }
  destruct (Qltb 1000 A) eqn:H1; cbn [andb].
  { apply Qltb_lt in H1. assert (200 < A)%Q by (eapply Qlt_trans; [|exact H1]; done).
    destruct (Qle_bool A 5000) eqn:Hle.
    - apply Qle_bool_iff in Hle.
      destruct (Qltb (4 # 10) (aspectOf b)) eqn:H4; cbn [andb];
        [|intros [= <-]; split_and!; done].
      destruct (Qltb (aspectOf b) (25 # 10)) eqn:H25; intros [= <-]; split_and!; try done.
      intros _. apply Qltb_lt in H4, H25. done.
    - unfold Qltb in H5. by rewrite Hle in H5. }
  destruct (Qltb 200 A) eqn:H2; cbn [andb]; [|done].
  apply Qltb_lt in H2.
  destruct (Qle_bool A 1000) eqn:Hle; [|done]. apply Qle_bool_iff in Hle.
  destruct (Qltb 2 (aspectOf b)) eqn:Ha; cbn [orb].
  - intros [= <-]. apply Qltb_lt in Ha. split_and!; try done. auto.
  - destruct (Qltb (aspectOf b) (5 # 10)) eqn:Hb; [|done].
    intros [= <-]. apply Qltb_lt in Hb. split_and!; try done. auto.
Qed.

Lemma calculateArea_short points :
  (length points < 3)%nat → calculateArea points = 0%Q.
Proof. intros H. unfold calculateArea. by rewrite bool_decide_eq_true_2. Qed.

Lemma classifyOne_Some w h points c :
  classifyOne w h points = Some c →
  Contour.points c = points ∧ Contour.area c = calculateArea points ∧
  classify (calculateArea points) (getBounds points) w h = Some (Contour.type c).
Proof.
  unfold classifyOne. destruct (classify _ _ _ _) as [t|] eqn:Ht; [|done].
  by intros [= <-].
Qed.

Lemma length_ofType_sum w h contours :
  (length (ofType w h wall contours) + length (ofType w h door contours) +
   length (ofType w h window contours) + length (ofType w h room contours)
   ≤ length contours)%nat.
Proof.
  induction contours as [|points contours IH]; [done|].
  unfold ofType in *. cbn [omap list_omap length].
  destruct (decisionTable _ _ _) as [[]|]; repeat case_decide; try done; cbn [length]; lia.
Qed.

(** X10.  What the classifier keeps: each kept contour is one of the input
    contours, has at least three points and an area above 200, and carries
    the tag of the array it is in; no more contours are kept than were
    given. *)
Theorem classifyContours_kept contours w h :
  let r := classifyContours contours w h in
  Forall (λ c, Contour.points c ∈ contours ∧ (3 ≤ length (Contour.points c))%nat ∧
               (200 < Contour.area c)%Q) (allContours r) ∧
  Forall (λ c, Contour.type c = wall) (Classified.walls r) ∧
  Forall (λ c, Contour.type c = door) (Classified.doors r) ∧
  Forall (λ c, Contour.type c = window) (Classified.windows r) ∧
  Forall (λ c, Contour.type c = room) (Classified.rooms r) ∧
  (length (allContours r) ≤ length contours)%nat.
Proof.
  cbv zeta. rewrite classifyContours_ofType. unfold allContours.
  cbn [Classified.walls Classified.doors Classified.windows Classified.rooms].
  assert (Hkept : ∀ t c, c ∈ ofType w h t contours →
            Contour.points c ∈ contours ∧ (3 ≤ length (Contour.points c))%nat ∧
            (200 < Contour.area c)%Q ∧ Contour.type c = t).
  { intros t c (points & Hin & (-> & -> & Hc)%classifyOne_Some & Ht)%elem_of_ofType.
    apply classify_Some in Hc as [HA _]. split_and!; [done| |done|done].
    destruct (decide (length points < 3)%nat) as [Hs|]; [|lia].
    rewrite calculateArea_short in HA by done. done. }
  split_and!.
  - rewrite !Forall_app. split_and!; apply Forall_forall; intros c Hc;
      destruct (Hkept _ c Hc) as (? & ? & ? & _); done.
  - apply Forall_forall. intros c Hc. by destruct (Hkept _ c Hc) as (_ & _ & _ & ?).
  - apply Forall_forall. intros c Hc. by destruct (Hkept _ c Hc) as (_ & _ & _ & ?).
  - apply Forall_forall. intros c Hc. by destruct (Hkept _ c Hc) as (_ & _ & _ & ?).
  - apply Forall_forall. intros c Hc. by destruct (Hkept _ c Hc) as (_ & _ & _ & ?).
  - rewrite !length_app. pose proof (length_ofType_sum w h contours). lia.
Qed.

(** X11.  A contour is classified as a room only when its area exceeds
    5000 and it stays clear of the boundary: every point of a room lies
    more than 5 pixels inside the image on each side. *)
Theorem rooms_clear_of_boundary contours w h :
  Forall (λ c, (5000 < Contour.area c)%Q ∧
               Forall (λ p, 5 < Point.x p < w - 5 ∧ 5 < Point.y p < h - 5)
                      (Contour.points c))
         (Classified.rooms (classifyContours contours w h)).
Proof.
  rewrite classifyContours_ofType. cbn [Classified.rooms]. apply Forall_forall.
  intros c (points & _ & (-> & -> & Hc)%classifyOne_Some & Ht)%elem_of_ofType.
  rewrite Ht in Hc. apply classify_Some in Hc as (_ & Hroom & _).
  destruct (Hroom eq_refl) as (HA & Htouch & _). split; [done|].
  destruct (getBounds_encloses points) as (Henc & _). cbv zeta in Henc.
  eapply Forall_impl; [exact Henc|]. cbn beta. intros p [Hx Hy].
  unfold touchesBoundary in Htouch. rewrite !orb_false_iff, !bool_decide_eq_false in Htouch.
  lia.
Qed.

(** * More on the area *)

Lemma chain_translate dx dy a l z :
  let f := λ p, Point.mk (Point.x p + dx) (Point.y p + dy) in
  foldr Z.add 0 (zip_with cross (f a :: (f <$> l)) ((f <$> l) ++ [f z])) =
  foldr Z.add 0 (zip_with cross (a :: l) (l ++ [z]))
  + dy * (Point.x a - Point.x z) + dx * (Point.y z - Point.y a).
Proof.
  intros f. revert a. induction l as [|b l IH]; intros a.
  - unfold cross. cbn. lia.
  - specialize (IH b). rewrite fmap_cons. cbn [app zip_with foldr] in *.
    rewrite IH. unfold cross, f. cbn [Point.x Point.y]. lia.
Qed.

Lemma shoelace_translate dx dy points :
  shoelace (translate dx dy points) = shoelace points.
Proof.
  destruct points as [|p rest]; [done|]. unfold shoelace, translate.
  rewrite fmap_cons. rewrite (chain_translate dx dy p rest p). do 2 f_equal. lia.
Qed.

(** X12.  The area of a contour does not depend on where the contour lies
    in the image: moving every point by the same offset leaves
    [calculateArea] unchanged. *)
Theorem calculateArea_translate dx dy points :
  (calculateArea (translate dx dy points) == calculateArea points)%Q.
Proof. by rewrite !calculateArea_shoelace, shoelace_translate. Qed.

Lemma chain_row y0 a l z :
  Forall (λ p, Point.y p = y0) (a :: l ++ [z]) →
  foldr Z.add 0 (zip_with cross (a :: l) (l ++ [z])) = y0 * (Point.x a - Point.x z).
Proof.
  revert a. induction l as [|b l IH]; intros a Hall.
  - apply Forall_cons_1 in Hall as [Ha Hall]. apply Forall_cons_1 in Hall as [Hz _].
    unfold cross. cbn. rewrite Ha, Hz. lia.
  - apply Forall_cons_1 in Hall as [Ha Hall]. pose proof Hall as Hb.
    apply Forall_cons_1 in Hb as [Hb _].
    specialize (IH b Hall). cbn [app zip_with foldr] in *. rewrite IH.
    unfold cross. rewrite Ha, Hb. lia.
Qed.

Lemma chain_column x0 a l z :
  Forall (λ p, Point.x p = x0) (a :: l ++ [z]) →
  foldr Z.add 0 (zip_with cross (a :: l) (l ++ [z])) = x0 * (Point.y z - Point.y a).
Proof.
  revert a. induction l as [|b l IH]; intros a Hall.
  - apply Forall_cons_1 in Hall as [Ha Hall]. apply Forall_cons_1 in Hall as [Hz _].
    unfold cross. cbn. rewrite Ha, Hz. lia.
  - apply Forall_cons_1 in Hall as [Ha Hall]. pose proof Hall as Hb.
    apply Forall_cons_1 in Hb as [Hb _].
    specialize (IH b Hall). cbn [app zip_with foldr] in *. rewrite IH.
    unfold cross. rewrite Ha, Hb. lia.
Qed.

Lemma classify_area_proper A A' b w h :
  (A == A')%Q → classify A b w h = classify A' b w h.
Proof.
  intros HA. unfold classify.
  assert (Qltb 5000 A = Qltb 5000 A') as -> by by rewrite HA.
  assert (Qltb 1000 A = Qltb 1000 A') as -> by by rewrite HA.
  assert (Qltb 200 A = Qltb 200 A') as -> by by rewrite HA.
  assert (Qle_bool A 5000 = Qle_bool A' 5000) as -> by by rewrite HA.
  assert (Qle_bool A 1000 = Qle_bool A' 1000) as -> by by rewrite HA.
  done.
Qed.

(** X13.  A contour whose points all lie on one row, or all on one column,
    has area 0, so the classifier drops it: a straight line one pixel thin
    is never classified. *)
Theorem straight_line_dropped w h points :
  (∃ y0, Forall (λ p, Point.y p = y0) points) ∨
  (∃ x0, Forall (λ p, Point.x p = x0) points) →
  (calculateArea points == 0)%Q ∧ classifyOne w h points = None.
Proof.
  intros Hline.
  assert (calculateArea points == 0)%Q as HA.
  { rewrite calculateArea_shoelace. destruct points as [|p rest]; [done|].
    unfold shoelace. destruct Hline as [[y0 Hall]|[x0 Hall]].
    - rewrite (chain_row y0).
      + by replace (y0 * (Point.x p - Point.x p)) with 0 by lia.
      + change (p :: rest ++ [p]) with ((p :: rest) ++ [p]). apply Forall_app.
        split; [done|]. apply Forall_cons_1 in Hall as [Hp _]. by repeat constructor.
    - rewrite (chain_column x0).
      + by replace (x0 * (Point.y p - Point.y p)) with 0 by lia.
      + change (p :: rest ++ [p]) with ((p :: rest) ++ [p]). apply Forall_app.
        split; [done|]. apply Forall_cons_1 in Hall as [Hp _]. by repeat constructor. }
  split; [done|]. unfold classifyOne. by rewrite (classify_area_proper _ 0 _ _ _ HA).
Qed.

Lemma straight_line_dropped_witness :
  (calculateArea rowOfPixels == 0)%Q ∧ classifyOne 100 100 rowOfPixels = None.
Proof.
  apply (straight_line_dropped 100 100 rowOfPixels). left. exists 7.
  unfold rowOfPixels. apply Forall_fmap, Forall_forall. done.
Defined.

(** * More on the rasterizer and the entry point *)

Lemma scaleFactor_small w h :
  1 ≤ w ≤ 800 → 1 ≤ h ≤ 800 → (scaleFactor w h == 1)%Q.
Proof.
  intros Hw Hh. unfold scaleFactor. apply Q.min_r.
  assert (∀ z, 1 ≤ z ≤ 800 → (1 <= 800 / inject_Z z)%Q) as H.
  { intros z Hz. apply Qle_shift_div_l; [apply inject_Z_pos; lia|].
    rewrite Qmult_1_l. change 800%Q with (inject_Z 800). rewrite <- Zle_Qle. lia. }
  apply Q.min_glb; by apply H.
Qed.

(** X14.  An image that fits in 800 by 800 pixels is not rescaled: the scale
    is 1 and the working image has the size of the original; the image is
    never enlarged. *)
Theorem small_image_unscaled drawImage this img :
  1 ≤ HTMLImageElement.width img ≤ 800 → 1 ≤ HTMLImageElement.height img ≤ 800 →
  ∃ r, (analyzeFloorPlan drawImage this img).2 = inr r ∧
       (ProcessingResult.scale r == 1)%Q ∧
       ProcessingResult.imageWidth r = HTMLImageElement.width img ∧
       ProcessingResult.imageHeight r = HTMLImageElement.height img.
Proof.
  intros Hw Hh.
  pose proof (scaleFactor_small _ _ Hw Hh) as Hs.
  destruct (workingWidth_floor img) as [Hfw _]; [lia..|].
  destruct (workingHeight_floor img) as [Hfh _]; [lia..|].
  rewrite Hs, Qmult_1_r, Qfloor_Z in Hfw, Hfh.
  rewrite analyzeFloorPlan_outcome. rewrite bool_decide_eq_false_2 by lia. cbv zeta.
  eexists. split; [reflexivity|]. cbn [ProcessingResult.scale ProcessingResult.imageWidth
    ProcessingResult.imageHeight]. done.
Qed.

Lemma small_image_unscaled_witness :
  ∃ r, (analyzeFloorPlan transparentDraw emptyCanvas smallImage).2 = inr r ∧
       (ProcessingResult.scale r == 1)%Q ∧
       ProcessingResult.imageWidth r = HTMLImageElement.width smallImage ∧
       ProcessingResult.imageHeight r = HTMLImageElement.height smallImage.
Proof. apply (small_image_unscaled transparentDraw emptyCanvas smallImage); cbn; lia. Defined.

(** The result of [analyzeFloorPlan] is the classification of the contours
    traced on the mask of an image of the working size. *)
Lemma analyzeFloorPlan_stages drawImage this img r :
  (analyzeFloorPlan drawImage this img).2 = inr r →
  ∃ imageData,
    ImageData.width imageData = ProcessingResult.imageWidth r ∧
    ImageData.height imageData = ProcessingResult.imageHeight r ∧
    let classified :=
      classifyContours (findContours (detectEdges imageData))
                       (ProcessingResult.imageWidth r) (ProcessingResult.imageHeight r) in
    ProcessingResult.walls r = Classified.walls classified ∧
    ProcessingResult.doors r = Classified.doors classified ∧
    ProcessingResult.windows r = Classified.windows classified ∧
    ProcessingResult.rooms r = Classified.rooms classified.
Proof.
  rewrite analyzeFloorPlan_outcome. case_bool_decide; [done|]. cbv zeta.
  intros [= <-]. cbn [ProcessingResult.imageWidth ProcessingResult.imageHeight
    ProcessingResult.walls ProcessingResult.doors ProcessingResult.windows
    ProcessingResult.rooms].
  match goal with |- context [detectEdges ?d] => exists d end. done.
Qed.

Lemma findContours_lengths e :
  Forall (λ c, 10 < Z.of_nat (length c) ≤ 1000) (findContours e).
Proof.
  rewrite findContours_filter. apply Forall_forall.
  intros c [Hc Hin]%list_elem_of_filter.
  pose proof (tracedRegions_length e) as H. rewrite Forall_forall in H.
  specialize (H c Hin). cbn in H. lia.
Qed.

Lemma findContours_interior img :
  Forall (λ c, NoDup c ∧
               Forall (λ p, interior (ImageData.width img) (ImageData.height img)
                                     (Point.x p) (Point.y p)) c)
         (findContours (detectEdges img)).
Proof.
  eapply Forall_impl; [apply findContours_sound|].
  intros c [Hnd Hc]. split; [done|]. eapply Forall_impl; [exact Hc|].
  intros [x y] [Hb He]. rewrite inBounds_detectEdges in Hb.
  rewrite isEdge_detectEdges in He by done.
  apply andb_true_iff in He as [Hi _]. by apply bool_decide_eq_true in Hi.
Qed.

(** X15.  What a consumer of a [ProcessingResult] can rely on: every
    contour has more than 10 and at most 1000 points, all distinct, all
    strictly inside the 1-pixel border of the working image, and an area
    above 200; and each contour carries the tag of the array it is in. *)
Theorem result_contour_invariants decode drawImage this file :
  match (processImage decode drawImage this file).2 with
  | inr r =>
      Forall (λ c, 10 < Z.of_nat (length (Contour.points c)) ≤ 1000 ∧
                   NoDup (Contour.points c) ∧
                   Forall (λ p, 1 ≤ Point.x p ≤ ProcessingResult.imageWidth r - 2 ∧
                                1 ≤ Point.y p ≤ ProcessingResult.imageHeight r - 2)
                          (Contour.points c) ∧
                   (200 < Contour.area c)%Q)
             (resultContours r) ∧
      Forall (λ c, Contour.type c = wall) (ProcessingResult.walls r) ∧
      Forall (λ c, Contour.type c = door) (ProcessingResult.doors r) ∧
      Forall (λ c, Contour.type c = window) (ProcessingResult.windows r) ∧
      Forall (λ c, Contour.type c = room) (ProcessingResult.rooms r)
  | inl _ => True
  end.
Proof.
  unfold processImage. destruct (decode file) as [img|]; [|done].
  destruct (analyzeFloorPlan drawImage this img).2 as [|r] eqn:Hr; [done|].
  apply analyzeFloorPlan_stages in Hr as (imageData & Hw & Hh & Hwalls & Hdoors & Hwin & Hrooms).
  unfold resultContours. rewrite Hwalls, Hdoors, Hwin, Hrooms.
  set (contours := findContours (detectEdges imageData)).
  destruct (classifyContours_kept contours (ProcessingResult.imageWidth r)
              (ProcessingResult.imageHeight r)) as (Hkept & Htw & Htd & Htn & Htr & _).
  cbv zeta in *. split_and!; [|done..].
  fold (allContours (classifyContours contours (ProcessingResult.imageWidth r)
                       (ProcessingResult.imageHeight r))).
  eapply Forall_impl; [exact Hkept|]. cbn beta. intros c (Hin & _ & HA).
  pose proof (findContours_lengths (detectEdges imageData)) as Hsz.
  pose proof (findContours_interior imageData) as Hint.
  rewrite Forall_forall in Hsz, Hint.
  destruct (Hint _ Hin) as [Hnd Hpts]. rewrite Hw, Hh in Hpts.
  split_and!; [apply (Hsz _ Hin)|apply (Hsz _ Hin)|done|done|done].
Qed.

(** * The OBJ export *)

Lemma vertexCount_app l1 l2 : vertexCount (l1 ++ l2) = vertexCount l1 + vertexCount l2.
Proof. unfold vertexCount. rewrite filter_app, length_app. lia. Qed.

Lemma faceCount_app l1 l2 : faceCount (l1 ++ l2) = faceCount l1 + faceCount l2.
Proof. unfold faceCount. rewrite filter_app, length_app. lia. Qed.

Lemma wellIndexedFrom_app n l1 l2 :
  wellIndexedFrom n (l1 ++ l2) ↔
  wellIndexedFrom n l1 ∧ wellIndexedFrom (n + vertexCount l1) l2.
Proof.
  revert n. induction l1 as [|[t|x y z|a b c d] l1 IH]; intros n; cbn [app wellIndexedFrom].
  - change (vertexCount []) with 0. rewrite Z.add_0_r. tauto.
  - rewrite IH. change (vertexCount (ObjComment t :: l1)) with (vertexCount l1). tauto.
  - rewrite IH.
    replace (n + vertexCount (ObjVertex x y z :: l1)) with (n + 1 + vertexCount l1); [tauto|].
    unfold vertexCount. rewrite filter_cons_True by done. cbn [length]. lia.
  - rewrite IH. change (vertexCount (ObjFace a b c d :: l1)) with (vertexCount l1). tauto.
Qed.

Lemma vertexCount_nonneg lines : 0 ≤ vertexCount lines.
Proof. unfold vertexCount. lia. Qed.

Lemma exportWall_invariant lines k wall :
  k = 1 + vertexCount lines → wellIndexedFrom 0 lines →
  let eligible := if bool_decide (3 ≤ length (Contour.points wall))%nat then 1 else 0 in
  (exportWall (lines, k) wall).2 = 1 + vertexCount (exportWall (lines, k) wall).1 ∧
  wellIndexedFrom 0 (exportWall (lines, k) wall).1 ∧
  vertexCount (exportWall (lines, k) wall).1 = vertexCount lines + 8 * eligible ∧
  faceCount (exportWall (lines, k) wall).1 = faceCount lines + 6 * eligible.
Proof.
  intros Hk Hwi. unfold exportWall. case_bool_decide; cbn [fst snd]; [|split_and!; [done|done|lia..]].
  rewrite !vertexCount_app, !faceCount_app.
  match goal with |- context [vertexCount [?a;?b;?c;?d;?e;?f;?g;?h]] =>
    change (vertexCount [a;b;c;d;e;f;g;h]) with 8;
    change (faceCount [a;b;c;d;e;f;g;h]) with 0 end.
  match goal with |- context [vertexCount [?a;?b;?c;?d;?e;?f]] =>
    change (vertexCount [a;b;c;d;e;f]) with 0;
    change (faceCount [a;b;c;d;e;f]) with 6 end.
  split_and!; [lia| |lia|lia].
  apply wellIndexedFrom_app. split.
  - apply wellIndexedFrom_app. split; [done|]. cbn [wellIndexedFrom]. done.
  - rewrite vertexCount_app.
    match goal with |- context [vertexCount [?a;?b;?c;?d;?e;?f;?g;?h]] =>
      change (vertexCount [a;b;c;d;e;f;g;h]) with 8 end.
    pose proof (vertexCount_nonneg lines) as Hn.
    subst k. cbn [wellIndexedFrom].
    rewrite !NoDup_cons, !elem_of_cons, !elem_of_nil.
    split_and!; try lia; try apply NoDup_nil_2; intros ?; lia.
Qed.

Lemma exportWalls_invariant walls :
  let out := foldl exportWall ([ObjComment "Floor Plan 3D Model"], 1) walls in
  let n := Z.of_nat (length (filter (λ w, 3 ≤ length (Contour.points w))%nat walls)) in
  out.2 = 1 + vertexCount out.1 ∧ wellIndexedFrom 0 out.1 ∧
  vertexCount out.1 = 8 * n ∧ faceCount out.1 = 6 * n.
Proof.
  cbv zeta. induction walls as [|wall walls IH] using rev_ind; [done|].
  rewrite foldl_app, filter_app, length_app. cbn [foldl].
  destruct (foldl exportWall ([ObjComment "Floor Plan 3D Model"], 1) walls) as [lines k].
  cbn [fst snd] in IH. destruct IH as (Hk & Hwi & Hv & Hf).
  destruct (exportWall_invariant lines k wall Hk Hwi) as (H1 & H2 & H3 & H4).
  split_and!; [done|done|..].
  - rewrite H3, Hv. rewrite filter_cons, filter_nil.
    case_bool_decide; destruct (decide _); cbn [length]; try lia; done.
  - rewrite H4, Hf. rewrite filter_cons, filter_nil.
    case_bool_decide; destruct (decide _); cbn [length]; try lia; done.
Qed.

(** X16.  The OBJ file is well indexed: every face names four distinct
    vertices declared above it, counted from 1; and each wall of three points
    or more gives eight vertices and six faces, a wall of fewer none. *)
Theorem exportToOBJ_well_indexed data :
  let n := Z.of_nat (length (filter (λ w, 3 ≤ length (Contour.points w))%nat
                                    (ProcessingResult.walls data))) in
  wellIndexedFrom 0 (exportToOBJ data) ∧
  vertexCount (exportToOBJ data) = 8 * n ∧
  faceCount (exportToOBJ data) = 6 * n.
Proof.
  cbv zeta. unfold exportToOBJ.
  destruct (exportWalls_invariant (ProcessingResult.walls data)) as (_ & H1 & H2 & H3).
  done.
Qed.

(** * The file drop *)

(** X17.  A drop hands on the first file whose type starts with [image/],
    and nothing when no dropped file has such a type. *)
Theorem handleDrop_first_image files :
  match handleDrop files with
  | Some file =>
      ∃ before after, files = before ++ file :: after ∧
        String.prefix "image/" (DroppedFile.type file) = true ∧
        Forall (λ f, String.prefix "image/" (DroppedFile.type f) = false) before
  | None => Forall (λ f, String.prefix "image/" (DroppedFile.type f) = false) files
  end.
Proof.
  unfold handleDrop.
  destruct (list_find _ files) as [[i file]|] eqn:E; cbn [fmap option_fmap option_map snd].
  - apply list_find_Some in E as (Hi & Hp & Hb).
    exists (take i files), (drop (S i) files). split_and!; [|done|].
    + by rewrite take_drop_middle.
    + apply Forall_forall. intros f Hf.
      apply list_elem_of_lookup_1 in Hf as [j Hj].
      pose proof (lookup_lt_Some _ _ _ Hj) as Hlt. rewrite length_take in Hlt.
      rewrite lookup_take_lt in Hj by lia.
      apply not_true_is_false, (Hb j f Hj). lia.
  - apply list_find_None in E. eapply Forall_impl; [exact E|].
    intros f Hf. by apply not_true_is_false.
Qed.

(** * The furniture of the scene *)




